(** * pylal.grbsummary: off-source segments and trial binning

    A shallow embedding of the segment arithmetic of [pylal/grbsummary.py]
    (GRB-triggered searches): [compute_masked_segments],
    [compute_offsource_segment], [multi_ifo_compute_offsource_segment] and
    [get_exttrig_trials].

    Times are Python integers, hence [Z]; [//] and [%] are Python's floor
    division and modulo, which agree with [Z.div] and [Z.modulo] and raise
    [ZeroDivisionError] on a zero divisor.  Exceptions are values of the
    [result] monad.  [glue.segments], [glue.iterutils] and [numpy] are
    external packages; the few operations the module calls are modelled
    after their documented behaviour in the modules [Segments], [Iterutils]
    and [Numpy] below. *)

From stdpp Require Import base option list gmap strings sorting.
From Stdlib Require Import ZArith Lia.

Local Open Scope Z_scope.

(** ** Exceptions *)

Inductive exn : Set :=
  | ValueError
  | ZeroDivisionError
  | KeyError
  | IndexError.

Inductive result (A : Type) : Type :=
  | Ok (a : A)
  | Raise (e : exn).
Arguments Ok {A} a.
Arguments Raise {A} e.

#[global] Instance exn_eq_dec : EqDecision exn.
Proof. solve_decision. Defined.

#[global] Instance result_ret : MRet result := fun _ a => Ok a.
#[global] Instance result_bind : MBind result := fun _ _ f m =>
  match m with
  | Ok a => f a
  | Raise e => Raise e
  end.
#[global] Instance result_fmap : FMap result := fun _ _ f m =>
  match m with
  | Ok a => Ok (f a)
  | Raise e => Raise e
  end.

(** Python's [a // b] and [a % b] on integers. *)
Definition floordiv (a b : Z) : result Z :=
  if decide (b = 0) then Raise ZeroDivisionError else Ok (a / b).

Definition pymod (a b : Z) : result Z :=
  if decide (b = 0) then Raise ZeroDivisionError else Ok (a mod b).

(** ** glue.segments *)

Module Segments.

(** A segment is the pair [(s[0], s[1])]. *)
Record segment : Set := mkseg { seg_lo : Z; seg_hi : Z }.

#[global] Instance segment_eq_dec : EqDecision segment.
Proof. solve_decision. Defined.

(** [segment(a, b)]: the constructor orders its two arguments. *)
Definition new_segment (a b : Z) : segment :=
  if bool_decide (a ≤ b) then mkseg a b else mkseg b a.

(** The class invariant every constructed segment satisfies. *)
Definition wf_segment (s : segment) : Prop := seg_lo s ≤ seg_hi s.

(** [abs(s)] *)
Definition seg_abs (s : segment) : Z := seg_hi s - seg_lo s.

(** [other in self], for a segment [other]. *)
Definition seg_contains (self other : segment) : bool :=
  bool_decide (seg_lo self ≤ seg_lo other) && bool_decide (seg_hi other ≤ seg_hi self).

(** [s.contract(x)] *)
Definition contract (s : segment) (x : Z) : segment :=
  new_segment (seg_lo s + x) (seg_hi s - x).

Abbreviation segmentlist := (list segment).

(** [l.find(item)]: index of the first element that wholly contains
    [item]; [ValueError] when there is none. *)
Fixpoint find (l : segmentlist) (item : segment) : result nat :=
  match l with
  | [] => Raise ValueError
  | seg :: l' =>
      if seg_contains seg item then Ok 0%nat
      else i ← find l' item; mret (S i)
  end.

(** [l[i]] *)
Definition getitem (l : segmentlist) (i : nat) : result segment :=
  match l !! i with
  | Some s => Ok s
  | None => Raise IndexError
  end.

(** [abs(l)]: the sum of the lengths. *)
Definition list_abs (l : segmentlist) : Z :=
  foldr (fun s acc => seg_abs s + acc) 0 l.

(** [l.extent()]: the smallest segment containing all of [l];
    [ValueError] on the empty list. *)
Definition extent (l : segmentlist) : result segment :=
  match l with
  | [] => Raise ValueError
  | s0 :: _ =>
      let step acc s :=
        (if bool_decide (s.(seg_lo) < fst acc) then s.(seg_lo) else fst acc,
         if bool_decide (snd acc < s.(seg_hi)) then s.(seg_hi) else snd acc) in
      let '(mn, mx) := foldl step (seg_lo s0, seg_hi s0) l in
      Ok (new_segment mn mx)
  end.

(** The order of tuples, which [list.sort] uses on segments. *)
Definition seg_le (a b : segment) : Prop :=
  seg_lo a < seg_lo b ∨ (seg_lo a = seg_lo b ∧ seg_hi a ≤ seg_hi b).

#[global] Instance seg_le_dec : RelDecision seg_le.
Proof. intros a b. unfold seg_le. apply _. Defined.

(** The merging loop of [coalesce], over a sorted list: [lo, hi) is the
    run being grown; a run of length zero is dropped. *)
Fixpoint coalesce_run (lo hi : Z) (l : segmentlist) : segmentlist :=
  let emit := if decide (lo = hi) then [] else [new_segment lo hi] in
  match l with
  | [] => emit
  | s :: l' =>
      if bool_decide (seg_lo s ≤ hi)
      then coalesce_run lo (Z.max hi (seg_hi s)) l'
      else emit ++ coalesce_run (seg_lo s) (seg_hi s) l'
  end.

(** [l.coalesce()]: sort, then merge touching or overlapping segments. *)
Definition coalesce (l : segmentlist) : segmentlist :=
  match merge_sort seg_le l with
  | [] => []
  | s :: l' => coalesce_run (seg_lo s) (seg_hi s) l'
  end.

(** [self | other].  With an empty operand the other one is returned as
    it is; otherwise the result is that of extending and coalescing
    (the library's bisection path gives the same list on coalesced
    operands). *)
Definition seglist_or (self other : segmentlist) : segmentlist :=
  match self, other with
  | _, [] => self
  | [], _ => other
  | _, _ => coalesce (self ++ other)
  end.

(** One element [s] of [self] against the remaining [other] in the loop
    of [__isub__]: the pieces of [s] that survive, and the part of
    [other] still to be looked at by the next element. *)
Fixpoint sub_seg (s : segment) (other : segmentlist) : segmentlist * segmentlist :=
  match other with
  | [] => ([s], [])
  | o :: other' =>
      if bool_decide (seg_hi o ≤ seg_lo s) then sub_seg s other'
      else if bool_decide (seg_hi s ≤ seg_lo o) then ([s], other)
      else if bool_decide (seg_lo o ≤ seg_lo s) then
        if bool_decide (seg_hi s ≤ seg_hi o) then ([], other)
        else sub_seg (new_segment (seg_hi o) (seg_hi s)) other'
      else
        let left := new_segment (seg_lo s) (seg_lo o) in
        if bool_decide (seg_hi s ≤ seg_hi o) then ([left], other)
        else
          let '(pieces, rest) := sub_seg (new_segment (seg_hi o) (seg_hi s)) other' in
          (left :: pieces, rest)
  end.

(** [self - other], for sorted operands. *)
Fixpoint seglist_sub (self other : segmentlist) : segmentlist :=
  match self with
  | [] => []
  | s :: self' =>
      let '(pieces, rest) := sub_seg s other in
      pieces ++ seglist_sub self' rest
  end.

(** [self & other]: the time common to both lists, for operands without
    segments of length zero. *)
Definition seg_and (s o : segment) : segmentlist :=
  let lo := Z.max (seg_lo s) (seg_lo o) in
  let hi := Z.min (seg_hi s) (seg_hi o) in
  if bool_decide (lo < hi) then [mkseg lo hi] else [].

Definition seglist_and (self other : segmentlist) : segmentlist :=
  s ← self; o ← other; seg_and s o.

End Segments.
Import Segments.

(** ** Segment-manipulation functions of grbsummary.py *)

(** Lines 82-141.  [min_trials] and [max_trials] are [None] when the
    caller leaves them out. *)
Definition compute_offsource_segment (analyzable : segmentlist)
    (on_source : segment) (padding_time : Z) (min_trials max_trials : option Z)
    (symmetric : bool) : result (option segment) :=
  let quantization_time := seg_abs on_source in
  match ind ← find analyzable on_source;
        s ← getitem analyzable ind;
        mret (contract s padding_time) with
  | Raise ValueError => mret None
  | Raise e => Raise e
  | Ok super_seg =>
      (* check again after taking padding into account *)
      if negb (seg_contains super_seg on_source) then mret None
      else
        nplus ← floordiv (seg_hi super_seg - seg_hi on_source) quantization_time;
        nminus ← floordiv (seg_lo on_source - seg_lo super_seg) quantization_time;
        let '(nplus, nminus) :=
          match max_trials with
          | Some max_trials =>
              if bool_decide (nplus + nminus > max_trials) then
                let half_max := max_trials / 2 in
                if bool_decide (nplus < half_max) then
                  (* left sticks out, so cut it *)
                  let remainder := max_trials - nplus in
                  (nplus, Z.min remainder nminus)
                else if bool_decide (nminus < half_max) then
                  (* right sticks out, so cut it *)
                  let remainder := max_trials - nminus in
                  (Z.min remainder nplus, nminus)
                else
                  (* both sides stick out, so cut symmetrically *)
                  (half_max, half_max)
              else (nplus, nminus)
          | None => (nplus, nminus)
          end in
        let '(nplus, nminus) :=
          if symmetric then (Z.min nplus nminus, Z.min nplus nminus)
          else (nplus, nminus) in
        let too_few :=
          match min_trials with
          | Some min_trials => bool_decide (nplus + nminus < min_trials)
          | None => false
          end in
        if too_few then mret None
        else mret (Some (new_segment
                    (seg_lo on_source - nminus * quantization_time - padding_time)
                    (seg_hi on_source + nplus * quantization_time + padding_time)))
  end.

(** *** The stages of [compute_offsource_segment]

    The properties below speak of the values the function holds at its
    successive lines; each stage is named here, and
    [compute_offsource_segment_stages] shows that the function is their
    composition. *)

(** Lines 108-115: the containing analyzable segment, contracted by the
    padding; [None] where the function returns [None]. *)
Definition find_super_seg (analyzable : segmentlist) (on_source : segment)
    (padding_time : Z) : result (option segment) :=
  match ind ← find analyzable on_source; getitem analyzable ind with
  | Ok s =>
      let super_seg := contract s padding_time in
      if seg_contains super_seg on_source then Ok (Some super_seg) else Ok None
  | Raise ValueError => Ok None
  | Raise e => Raise e
  end.

(** Lines 117-118: the side counts the analyzable time allows. *)
Definition natural_trials (super_seg on_source : segment) : result (Z * Z) :=
  let quantization_time := seg_abs on_source in
  nplus ← floordiv (seg_hi super_seg - seg_hi on_source) quantization_time;
  nminus ← floordiv (seg_lo on_source - seg_lo super_seg) quantization_time;
  mret (nplus, nminus).

(** Lines 120-132: truncation of the side counts to [max_trials]. *)
Definition truncate_trials (max_trials : option Z) (nplus nminus : Z) : Z * Z :=
  match max_trials with
  | Some max_trials =>
      if bool_decide (nplus + nminus > max_trials) then
        let half_max := max_trials / 2 in
        if bool_decide (nplus < half_max) then
          let remainder := max_trials - nplus in
          (nplus, Z.min remainder nminus)
        else if bool_decide (nminus < half_max) then
          let remainder := max_trials - nminus in
          (Z.min remainder nplus, nminus)
        else (half_max, half_max)
      else (nplus, nminus)
  | None => (nplus, nminus)
  end.

(** Lines 134-135. *)
Definition symmetrize (symmetric : bool) (n : Z * Z) : Z * Z :=
  if symmetric then (Z.min (fst n) (snd n), Z.min (fst n) (snd n)) else n.

(** Lines 117-135: the side counts [(nplus, nminus)] when line 137 is
    reached. *)
Definition final_trials (super_seg on_source : segment)
    (max_trials : option Z) (symmetric : bool) : result (Z * Z) :=
  n ← natural_trials super_seg on_source;
  mret (symmetrize symmetric (truncate_trials max_trials (fst n) (snd n))).

(** Lines 140-141: the segment built from the side counts. *)
Definition offsource_of (on_source : segment) (padding_time nplus nminus : Z)
    : segment :=
  new_segment (seg_lo on_source - nminus * seg_abs on_source - padding_time)
              (seg_hi on_source + nplus * seg_abs on_source + padding_time).

Definition offsource_by_stages (analyzable : segmentlist)
    (on_source : segment) (padding_time : Z) (min_trials max_trials : option Z)
    (symmetric : bool) : result (option segment) :=
  o ← find_super_seg analyzable on_source padding_time;
  match o with
  | None => mret None
  | Some super_seg =>
      n ← final_trials super_seg on_source max_trials symmetric;
      let too_few :=
        match min_trials with
        | Some min_trials => bool_decide (fst n + snd n < min_trials)
        | None => false
        end in
      if too_few then mret None
      else mret (Some (offsource_of on_source padding_time (fst n) (snd n)))
  end.

(** The keyword defaults of [compute_offsource_segment]. *)
Definition default_padding_time : Z := 0.
Definition default_symmetric : bool := true.

(** Lines 54-80.  [veto_seglist] and [quantization_time] are [None] when
    the caller leaves them out. *)
Definition compute_masked_segments (analyzable_seglist : segmentlist)
    (on_source_segment : segment) (veto_seglist : option segmentlist)
    (quantization_time : option Z) : result (segmentlist * segmentlist) :=
  let analyzable_seglist := coalesce analyzable_seglist in
  let veto_seglist := default [] veto_seglist in
  let off_source_segs := seglist_sub analyzable_seglist [on_source_segment] in
  (* on-source mask *)
  let on_source_mask := seglist_or off_source_segs veto_seglist in
  (* off-source mask: first, assign its value without quantization *)
  let off_source_mask := seglist_or [on_source_segment] veto_seglist in
  (* then, quantize as necessary *)
  match quantization_time with
  | Some quantization_time =>
      off_source_quantized ←
        mapM (M := result) (fun s =>
                n ← floordiv (seg_abs s) quantization_time;
                mret (new_segment (seg_lo s) (seg_lo s + n)))
             (seglist_sub off_source_segs off_source_mask);
      mret (on_source_mask, seglist_sub analyzable_seglist off_source_quantized)
  | None => mret (on_source_mask, off_source_mask)
  end.

(** ** glue.iterutils *)

Module Iterutils.

(** [choices(vals, n)]: all choices of [n] elements of [vals], each in
    the order of [vals], the earliest first element first. *)
Fixpoint choices {A} (vals : list A) (n : nat) : list (list A) :=
  match n, vals with
  | O, _ => [[]]
  | S _, [] => []
  | S n', v :: vals' => ((v ::.) <$> choices vals' n') ++ choices vals' n
  end.

End Iterutils.
Import Iterutils.

(** ** Convenience functions *)

Definition sensitivity_dict : gmap string Z :=
  list_to_map [("H1", 1); ("L1", 2); ("H2", 3); ("V1", 4); ("G1", 5)]%string.

(** [d[key]] on a dictionary. *)
Definition dict_getitem {V} (d : gmap string V) (key : string) : result V :=
  match d !! key with
  | Some v => Ok v
  | None => Raise KeyError
  end.

(** Lines 43-48: most sensitive first. *)
Definition sensitivity_cmp (ifo1 ifo2 : string) : result comparison :=
  r1 ← dict_getitem sensitivity_dict ifo1;
  r2 ← dict_getitem sensitivity_dict ifo2;
  mret (r1 ?= r2).

(** [l.sort(cmp)]: a stable sort; [cmp] is called on every element once
    the list has two, so an exception of [cmp] is one of the sort. *)
Fixpoint sort_insert {A} (cmp : A → A → result comparison) (x : A) (l : list A)
    : result (list A) :=
  match l with
  | [] => mret [x]
  | y :: l' =>
      c ← cmp x y;
      match c with
      | Gt => l'' ← sort_insert cmp x l'; mret (y :: l'')
      | _ => mret (x :: l)
      end
  end.

Fixpoint sort_cmp {A} (cmp : A → A → result comparison) (l : list A)
    : result (list A) :=
  match l with
  | [] => mret []
  | x :: l' => s ← sort_cmp cmp l'; sort_insert cmp x s
  end.

(** [l.sort()] on a list of strings. *)
Definition string_le (a b : string) : Prop := String.leb a b = true.

#[global] Instance string_le_dec : RelDecision string_le.
Proof. intros a b. unfold string_le. apply _. Defined.

Definition sort_strings (l : list string) : list string := merge_sort string_le l.

(** [xrange(start, stop, -1)] *)
Definition xrange_down (start stop : nat) : list nat :=
  reverse (seq (S stop) (start - stop)).

(** ** Multi-detector off-source segment *)

(** The keyword arguments handed on to [compute_offsource_segment]; a
    missing keyword takes the default of that function. *)
Record kwargs : Set := mk_kwargs {
  padding_time : Z;
  min_trials : option Z;
  max_trials : option Z;
  symmetric : bool
}.

Definition default_kwargs : kwargs :=
  mk_kwargs default_padding_time None None default_symmetric.

(** Lines 150-156: the dictionary sieved down to the detectors with a
    segment around [on_source], each keeping that one segment. *)
Definition new_analyzable_dict (analyzable_dict : gmap string segmentlist)
    (on_source : segment) : gmap string segmentlist :=
  omap (fun seglist : segmentlist =>
          match find seglist on_source with
          | Ok ind => (fun s => [s]) <$> seglist !! ind
          | Raise _ => None
          end) analyzable_dict.

(** Lines 157-158.  [keys()] comes in the order of the dictionary, which
    the sort replaces by the sensitivity order. *)
Definition analyzable_ifos (analyzable_dict : gmap string segmentlist)
    (on_source : segment) : result (list string) :=
  sort_cmp sensitivity_cmp (map_to_list (new_analyzable_dict analyzable_dict on_source)).*1.

(** Lines 162-164: all combinations of [n] detectors, for [n] from the
    number of detectors down to two. *)
Definition test_combos (ifos : list string) : list (list string) :=
  mjoin ((fun n => choices ifos n) <$> xrange_down (length ifos) 1).

(** [segmentlistdict.intersection(keys)]: the lists of the (distinct)
    keys, intersected one after the other. *)
Definition intersection (d : gmap string segmentlist) (keys : list string)
    : result segmentlist :=
  match remove_dups keys with
  | [] => mret []
  | key :: keys' =>
      seglist ← dict_getitem d key;
      foldl (fun acc key => l ← acc; o ← dict_getitem d key; mret (seglist_and l o))
            (mret seglist) keys'
  end.

(** Lines 169-171: one pass of the loop body. *)
Definition try_combo (d : gmap string segmentlist) (on_source : segment)
    (kw : kwargs) (ifo_combo : list string) : result (option segment) :=
  trial_seglist ← intersection d ifo_combo;
  compute_offsource_segment trial_seglist on_source
    (padding_time kw) (min_trials kw) (max_trials kw) (symmetric kw).

(** Lines 166-178: the loop over the combinations. *)
Fixpoint first_offsource (d : gmap string segmentlist) (on_source : segment)
    (kw : kwargs) (combos : list (list string))
    : result (option segment * list string) :=
  match combos with
  | [] => mret (None, [])
  | ifo_combo :: combos' =>
      temp_segment ← try_combo d on_source kw ifo_combo;
      match temp_segment with
      | Some off_source_segment => mret (Some off_source_segment, sort_strings ifo_combo)
      | None => first_offsource d on_source kw combos'
      end
  end.

Definition multi_ifo_compute_offsource_segment
    (analyzable_dict : gmap string segmentlist) (on_source : segment)
    (kw : kwargs) : result (option segment * list string) :=
  ifos ← analyzable_ifos analyzable_dict on_source;
  first_offsource (new_analyzable_dict analyzable_dict on_source) on_source kw
    (test_combos ifos).

(** ** numpy *)

Module Numpy.

(** [numpy.zeros(n, dtype=numpy.bool8)] *)
Definition zeros (n : Z) : result (list bool) :=
  if bool_decide (n < 0) then Raise ValueError
  else mret (replicate (Z.to_nat n) false).

(** [a |= b] on one-dimensional boolean arrays: [b] has the shape of
    [a] or is broadcast from a single element, and [a] keeps its
    shape. *)
Definition ior (a b : list bool) : result (list bool) :=
  if decide (length b = length a) then mret (zip_with orb a b)
  else match b with
       | [x] => mret (orb x <$> a)
       | _ => Raise ValueError
       end.

(** [sum(a)] of a boolean array. *)
Definition count_true (a : list bool) : Z :=
  foldr (fun (b : bool) acc => (if b then 1 else 0) + acc) 0 a.

(** [numpy.arange(len(a))[a]]: the indices of the true entries, counted
    from [i]. *)
Fixpoint arange_masked (i : nat) (a : list bool) : list nat :=
  match a with
  | [] => []
  | b :: a' => (if b then [i] else []) ++ arange_masked (S i) a'
  end.

End Numpy.
Import Numpy.

(** ** Trial binning *)

Section Trials.

(** [pylal.rate] is not part of the sources at hand: the binning class
    and [rate.bins_spanned] are parameters of the embedding.  The veto
    files enter as the segment lists [segmentsUtils.fromsegwizard] reads
    from them; the warning written to [sys.stderr] leaves the returned
    value alone and is left out. *)
Context {LinearBins : Type}.
Variable new_LinearBins : Z → Z → Z → result LinearBins.
Variable bins_spanned : LinearBins → segmentlist → list bool.

(** Lines 225-233: the divisibility check and the bins. *)
Definition trial_binning (on_segs off_segs : segmentlist)
    : result (Z * LinearBins) :=
  (* Check that offsource length is a multiple of the onsource segment length *)
  let trial_len := list_abs on_segs in
  r ← pymod (list_abs off_segs) trial_len;
  if decide (r ≠ 0) then Raise ValueError
  else
    extent ← extent off_segs;
    (* generate bins for trials *)
    num_trials ← floordiv (seg_abs extent) trial_len;
    trial_bins ← new_LinearBins (seg_lo extent) (seg_hi extent) num_trials;
    mret (num_trials, trial_bins).

(** Lines 237-244: the loop over the veto files. *)
Fixpoint veto_loop (trial_bins : LinearBins) (trial_veto_mask : list bool)
    (veto_files : list segmentlist) : result (list bool) :=
  match veto_files with
  | [] => mret trial_veto_mask
  | new_veto_segs :: veto_files' =>
      m ← ior trial_veto_mask (bins_spanned trial_bins new_veto_segs);
      veto_loop trial_bins m veto_files'
  end.

Definition get_exttrig_trials (on_segs off_segs : segmentlist)
    (veto_files : list segmentlist)
    : result (LinearBins * list bool * list nat) :=
  b ← trial_binning on_segs off_segs;
  let '(num_trials, trial_bins) := b in
  (* incorporate veto file; in trial_veto_mask, True means vetoed. *)
  zero ← zeros num_trials;
  trial_veto_mask ← veto_loop trial_bins zero veto_files;
  (* identify onsource trial index *)
  let onsource_mask := bins_spanned trial_bins on_segs in
  if decide (count_true onsource_mask ≠ 1) then Raise ValueError
  else mret (trial_bins, trial_veto_mask, arange_masked 0 onsource_mask).

End Trials.

(** Modelled from the spec: [pylal.rate.LinearBins] and
    [pylal.rate.bins_spanned], which are not among the sources.  The
    off-source extent [min, max) is partitioned into [n] equal bins, and a
    bin is marked when an interval of the list overlaps it.  The bounds of
    bin [i] are [min + i * (max - min) / n] and the same at [i + 1]; the
    comparisons are made on the bounds multiplied by [n], so that no
    rounding enters. *)
Record spec_bins : Set := mk_spec_bins {
  bins_min : Z;
  bins_max : Z;
  bins_n : Z
}.

Definition spec_LinearBins (min max n : Z) : result spec_bins :=
  mret (mk_spec_bins min max n).

Definition spec_bin_overlaps (b : spec_bins) (i : Z) (s : segment) : bool :=
  let width_n := bins_max b - bins_min b in
  bool_decide (seg_lo s < seg_hi s)
  && bool_decide (bins_min b * bins_n b + i * width_n < seg_hi s * bins_n b)
  && bool_decide (seg_lo s * bins_n b < bins_min b * bins_n b + (i + 1) * width_n).

Definition spec_bins_spanned (b : spec_bins) (l : segmentlist) : list bool :=
  (fun i : nat => existsb (spec_bin_overlaps b (Z.of_nat i)) l)
    <$> seq 0 (Z.to_nat (bins_n b)).


(** ** Predicates of the specification *)

(** No segment of [l] wholly contains [item]. *)
Definition no_containing (l : segmentlist) (item : segment) : Prop :=
  Forall (fun s => seg_contains s item = false) l.

(** [s] is the first segment of [l] that wholly contains [item]. *)
Definition first_containing (l : segmentlist) (item s : segment) : Prop :=
  ∃ pre post, l = pre ++ s :: post ∧ no_containing pre item
              ∧ seg_contains s item = true.

(** [a] comes before [b] in the sensitivity ranking. *)
Definition more_sensitive (a b : string) : Prop :=
  ∃ ra rb, sensitivity_dict !! a = Some ra ∧ sensitivity_dict !! b = Some rb
           ∧ ra < rb.

Definition at_least_as_sensitive (a b : string) : Prop :=
  ∃ ra rb, sensitivity_dict !! a = Some ra ∧ sensitivity_dict !! b = Some rb
           ∧ ra ≤ rb.

(** The lexicographic order on lists, at the first place they differ. *)
Inductive lex_lt {A} (R : relation A) : relation (list A) :=
  | lex_lt_head x y l1 l2 : R x y → lex_lt R (x :: l1) (y :: l2)
  | lex_lt_tail x l1 l2 : lex_lt R l1 l2 → lex_lt R (x :: l1) (x :: l2).

(** The order in which combinations are tried: the larger first, and among
    those of one size the one with the more sensitive detector at the first
    place they differ. *)
Definition combo_before (c1 c2 : list string) : Prop :=
  (length c2 < length c1)%nat
  ∨ (length c1 = length c2 ∧ lex_lt more_sensitive c1 c2).

(** The detector [ifo] has a segment around [on_source] in its list. *)
Definition has_containing (analyzable_dict : gmap string segmentlist)
    (on_source : segment) (ifo : string) : Prop :=
  ∃ seglist s, analyzable_dict !! ifo = Some seglist ∧ s ∈ seglist
               ∧ seg_contains s on_source = true.

(** The time common to the segments [segs], taken one after the other. *)
Definition common_time (segs : list segment) : segmentlist :=
  match segs with
  | [] => []
  | s :: segs' => foldl (fun acc s' => seglist_and acc [s']) [s] segs'
  end.





(** ** XML convenience code *)

(** A row of the [process_params] table, as far as [get_num_slides] reads
    it. *)
Record process_params_row : Set := mk_row {
  row_param : string;
  row_value : string
}.

Section NumSlides.

(** [int(s)] on a string is the builtin's business and a parameter here. *)
Variable py_int : string → result Z.

(** Lines 333-335: the rows of one table. *)
Fixpoint num_slides_in (tbl : list process_params_row) : option (result Z) :=
  match tbl with
  | [] => None
  | row :: tbl' =>
      if decide (row_param row = "--num-slides"%string)
      then Some (py_int (row_value row))
      else num_slides_in tbl'
  end.

(** Lines 324-336, on the tables [table.getTablesByName] finds under the
    name of the [process_params] table. *)
Fixpoint get_num_slides (tables : list (list process_params_row)) : result Z :=
  match tables with
  | [] => mret 0
  | tbl :: tables' =>
      match num_slides_in tbl with
      | Some r => r
      | None => get_num_slides tables'
      end
  end.

End NumSlides.

(** * Properties *)

(** ** Segments *)

Lemma new_segment_le a b : a ≤ b → new_segment a b = mkseg a b.
Proof. intros H. unfold new_segment. by rewrite bool_decide_eq_true_2. Qed.

Lemma new_segment_gt a b : b < a → new_segment a b = mkseg b a.
Proof. intros H. unfold new_segment. rewrite bool_decide_eq_false_2; [done | lia]. Qed.

Lemma new_segment_wf a b : wf_segment (new_segment a b).
Proof.
  unfold new_segment, wf_segment. case_bool_decide; simpl; lia.
Qed.

Lemma seg_contains_true self other :
  seg_contains self other = true
  ↔ seg_lo self ≤ seg_lo other ∧ seg_hi other ≤ seg_hi self.
Proof.
  unfold seg_contains. rewrite andb_true_iff, !bool_decide_eq_true. done.
Qed.

Lemma seg_contains_false self other :
  seg_contains self other = false
  ↔ seg_lo other < seg_lo self ∨ seg_hi self < seg_hi other.
Proof.
  rewrite <- not_true_iff_false, seg_contains_true. lia.
Qed.

(** [find] followed by the indexing: either the first containing segment,
    or [ValueError] when there is none. *)
Lemma find_getitem l item :
  (∃ s, first_containing l item s
        ∧ (ind ← find l item; getitem l ind) = Ok s)
  ∨ (no_containing l item
     ∧ (ind ← find l item; getitem l ind) = Raise ValueError).
Proof.
  induction l as [|x l IH]; simpl.
  - right. split; [constructor | done].
  - destruct (seg_contains x item) eqn:Hx; simpl.
    + left. exists x. split; [| done].
      exists [], l. split_and!; [done | constructor | done].
    + destruct IH as [(s & (pre & post & -> & Hpre & Hs) & Hget) | [Hno Hget]].
      * left. exists s. split.
        -- exists (x :: pre), post. split_and!; [done | by constructor | done].
        -- destruct (find _ item) as [i|e]; simpl in *; done.
      * right. split; [by constructor |].
        destruct (find l item) as [i|e]; simpl in *; done.
Qed.

Lemma first_containing_unique l item s1 s2 :
  first_containing l item s1 → first_containing l item s2 → s1 = s2.
Proof.
  intros (pre1 & post1 & -> & Hp1 & Hs1) (pre2 & post2 & Heq & Hp2 & Hs2).
  revert pre2 Heq Hp2. induction pre1 as [|x pre1 IH]; intros pre2 Heq Hp2.
  - destruct pre2 as [|y pre2]; simpl in Heq; [congruence |].
    injection Heq as -> _. inversion Hp2; congruence.
  - destruct pre2 as [|y pre2]; simpl in Heq.
    + injection Heq as -> _. inversion Hp1; congruence.
    + injection Heq as -> Heq. inversion Hp1; inversion Hp2; subst. eauto.
Qed.

Lemma first_containing_not_no l item s :
  first_containing l item s → ¬ no_containing l item.
Proof.
  intros (pre & post & -> & _ & Hs) Hno.
  apply Forall_app in Hno as [_ Hno]. inversion Hno; congruence.
Qed.

(** The three outcomes of lines 108-115. *)
Lemma find_super_seg_cases analyzable on_source padding_time :
  (no_containing analyzable on_source
   ∧ find_super_seg analyzable on_source padding_time = Ok None)
  ∨ (∃ s, first_containing analyzable on_source s
          ∧ seg_contains (contract s padding_time) on_source = false
          ∧ find_super_seg analyzable on_source padding_time = Ok None)
  ∨ (∃ s, first_containing analyzable on_source s
          ∧ seg_contains (contract s padding_time) on_source = true
          ∧ find_super_seg analyzable on_source padding_time
            = Ok (Some (contract s padding_time))).
Proof.
  unfold find_super_seg.
  destruct (find_getitem analyzable on_source) as [(s & Hs & ->) | [Hno ->]].
  - right. destruct (seg_contains (contract s padding_time) on_source) eqn:Hc.
    + right. exists s. by rewrite Hc.
    + left. exists s. by rewrite Hc.
  - by left.
Qed.

Lemma find_super_seg_Some analyzable on_source padding_time super_seg :
  find_super_seg analyzable on_source padding_time = Ok (Some super_seg) →
  ∃ s, first_containing analyzable on_source s
       ∧ super_seg = contract s padding_time
       ∧ seg_contains super_seg on_source = true.
Proof.
  intros H.
  destruct (find_super_seg_cases analyzable on_source padding_time)
    as [[_ H'] | [(s & _ & _ & H') | (s & Hs & Hc & H')]];
    rewrite H' in H; try discriminate.
  injection H as <-. eauto.
Qed.

(** ** Side counts *)

Lemma natural_trials_Ok super_seg on_source :
  seg_abs on_source ≠ 0 →
  natural_trials super_seg on_source
  = Ok ((seg_hi super_seg - seg_hi on_source) / seg_abs on_source,
        (seg_lo on_source - seg_lo super_seg) / seg_abs on_source).
Proof.
  intros H. unfold natural_trials, floordiv.
  destruct (decide (seg_abs on_source = 0)); [done | reflexivity].
Qed.

Lemma natural_trials_zero super_seg on_source :
  seg_abs on_source = 0 →
  natural_trials super_seg on_source = Raise ZeroDivisionError.
Proof.
  intros H. unfold natural_trials, floordiv.
  destruct (decide (seg_abs on_source = 0)); [reflexivity | done].
Qed.

Lemma natural_trials_nonneg super_seg on_source nplus nminus :
  wf_segment on_source →
  seg_contains super_seg on_source = true →
  natural_trials super_seg on_source = Ok (nplus, nminus) →
  0 < seg_abs on_source ∧ 0 ≤ nplus ∧ 0 ≤ nminus
  ∧ nplus * seg_abs on_source ≤ seg_hi super_seg - seg_hi on_source
  ∧ nminus * seg_abs on_source ≤ seg_lo on_source - seg_lo super_seg.
Proof.
  intros Hwf Hc%seg_contains_true Hn.
  destruct (decide (seg_abs on_source = 0)) as [Hz | Hz].
  { by rewrite natural_trials_zero in Hn. }
  rewrite natural_trials_Ok in Hn by done. injection Hn as <- <-.
  unfold wf_segment, seg_abs in *.
  assert (0 < seg_hi on_source - seg_lo on_source) as Hq by lia.
  split_and!; [done | apply Z.div_pos; lia | apply Z.div_pos; lia | |].
  - rewrite Z.mul_comm. apply Z.mul_div_le. lia.
  - rewrite Z.mul_comm. apply Z.mul_div_le. lia.
Qed.

Lemma truncate_trials_nonneg max_trials nplus nminus :
  (∀ m, max_trials = Some m → 0 ≤ m) → 0 ≤ nplus → 0 ≤ nminus →
  0 ≤ (truncate_trials max_trials nplus nminus).1
  ∧ 0 ≤ (truncate_trials max_trials nplus nminus).2.
Proof.
  intros Hm Hp Hn. unfold truncate_trials.
  destruct max_trials as [m|]; [| done].
  specialize (Hm m eq_refl).
  assert (0 ≤ m / 2) by (apply Z.div_pos; lia).
  assert (2 * (m / 2) ≤ m) by (apply Z.mul_div_le; lia).
  repeat case_bool_decide; simpl; lia.
Qed.

Lemma truncate_trials_le max_trials nplus nminus :
  (truncate_trials (Some max_trials) nplus nminus).1
  + (truncate_trials (Some max_trials) nplus nminus).2
  ≤ Z.max max_trials (nplus + nminus)
  ∧ (nplus + nminus > max_trials →
     (truncate_trials (Some max_trials) nplus nminus).1
     + (truncate_trials (Some max_trials) nplus nminus).2 ≤ max_trials).
Proof.
  unfold truncate_trials.
  assert (2 * (max_trials / 2) ≤ max_trials) by (apply Z.mul_div_le; lia).
  repeat case_bool_decide; simpl; lia.
Qed.

Lemma symmetrize_le symmetric n :
  (symmetrize symmetric n).1 + (symmetrize symmetric n).2 ≤ n.1 + n.2.
Proof. unfold symmetrize. destruct symmetric; simpl; lia. Qed.

(** The function is the composition of its stages. *)
Lemma compute_offsource_segment_stages analyzable on_source padding_time
    min_trials max_trials symmetric :
  compute_offsource_segment analyzable on_source padding_time min_trials
    max_trials symmetric
  = offsource_by_stages analyzable on_source padding_time min_trials
      max_trials symmetric.
Proof.
  unfold compute_offsource_segment, offsource_by_stages, find_super_seg,
    final_trials, natural_trials, offsource_of, getitem.
  destruct (find analyzable on_source) as [i|[]]; simpl; try done.
  destruct (analyzable !! i) as [s|]; simpl; try done.
  destruct (seg_contains (contract s padding_time) on_source); simpl; try done.
  unfold floordiv. destruct (decide (seg_abs on_source = 0)); simpl; try done.
  unfold truncate_trials, symmetrize.
  destruct max_trials as [m|], symmetric, min_trials as [m'|];
    repeat case_bool_decide; simpl; try done; repeat case_bool_decide; done.
Qed.

(** Unfolding of [compute_offsource_segment] once the contracted segment
    and the side counts are known. *)
Lemma compute_offsource_segment_eq analyzable on_source padding_time
    min_trials max_trials symmetric super_seg nplus nminus :
  find_super_seg analyzable on_source padding_time = Ok (Some super_seg) →
  final_trials super_seg on_source max_trials symmetric = Ok (nplus, nminus) →
  compute_offsource_segment analyzable on_source padding_time min_trials
    max_trials symmetric
  = match min_trials with
    | Some m =>
        if bool_decide (nplus + nminus < m) then Ok None
        else Ok (Some (offsource_of on_source padding_time nplus nminus))
    | None => Ok (Some (offsource_of on_source padding_time nplus nminus))
    end.
Proof.
  intros Hs Hn. rewrite compute_offsource_segment_stages.
  unfold offsource_by_stages. rewrite Hs. simpl.
  rewrite Hn. simpl. destruct min_trials as [m|]; [| done].
  by case_bool_decide.
Qed.

(** A returned segment comes from a contracted containing segment and
    from the side counts of line 137. *)
Lemma compute_offsource_segment_Some analyzable on_source padding_time
    min_trials max_trials symmetric r :
  compute_offsource_segment analyzable on_source padding_time min_trials
    max_trials symmetric = Ok (Some r) →
  ∃ super_seg nplus nminus,
    find_super_seg analyzable on_source padding_time = Ok (Some super_seg)
    ∧ final_trials super_seg on_source max_trials symmetric = Ok (nplus, nminus)
    ∧ (∀ m, min_trials = Some m → m ≤ nplus + nminus)
    ∧ r = offsource_of on_source padding_time nplus nminus.
Proof.
  intros H.
  destruct (find_super_seg analyzable on_source padding_time)
    as [[super_seg|]|e] eqn:Hs;
    [| rewrite compute_offsource_segment_stages in H;
       unfold offsource_by_stages in H; by rewrite Hs in H ..].
  destruct (final_trials super_seg on_source max_trials symmetric)
    as [[nplus nminus]|e] eqn:Hn.
  - rewrite (compute_offsource_segment_eq _ _ _ _ _ _ _ _ _ Hs Hn) in H.
    exists super_seg, nplus, nminus. split_and!; [done | done | |].
    + intros m ->. case_bool_decide; [done | lia].
    + destruct min_trials; [case_bool_decide |]; congruence.
  - rewrite compute_offsource_segment_stages in H.
    unfold offsource_by_stages in H. rewrite Hs in H. simpl in H.
    by rewrite Hn in H.
Qed.

Lemma final_trials_Ok super_seg on_source max_trials symmetric nplus nminus :
  final_trials super_seg on_source max_trials symmetric = Ok (nplus, nminus) →
  ∃ nplus0 nminus0,
    natural_trials super_seg on_source = Ok (nplus0, nminus0)
    ∧ (nplus, nminus)
      = symmetrize symmetric (truncate_trials max_trials nplus0 nminus0).
Proof.
  unfold final_trials. intros H.
  destruct (natural_trials super_seg on_source) as [[nplus0 nminus0]|e];
    simpl in H; [| done].
  injection H as H. eauto.
Qed.

Lemma final_trials_total super_seg on_source max_trials symmetric :
  seg_abs on_source ≠ 0 →
  ∃ nplus nminus,
    final_trials super_seg on_source max_trials symmetric = Ok (nplus, nminus).
Proof.
  intros H. unfold final_trials. rewrite natural_trials_Ok by done. simpl.
  destruct (symmetrize _ _) as [nplus nminus]. eauto.
Qed.

(** The count of the symmetric mode in terms of the natural counts: their
    minimum, capped at half of [max_trials]. *)
Lemma symmetric_count_natural max_trials nplus0 nminus0 :
  Z.min (truncate_trials max_trials nplus0 nminus0).1
        (truncate_trials max_trials nplus0 nminus0).2
  = match max_trials with
    | Some m => Z.min (Z.min nplus0 nminus0) (m / 2)
    | None => Z.min nplus0 nminus0
    end.
Proof.
  unfold truncate_trials. destruct max_trials as [m|]; [| done].
  assert (2 * (m / 2) ≤ m < 2 * (m / 2) + 2) as Hhalf.
  { pose proof (Z.div_mod m 2 ltac:(lia)) as Hdm.
    pose proof (Z.mod_pos_bound m 2 ltac:(lia)). lia. }
  repeat case_bool_decide; simpl; lia.
Qed.

(** Whether or not the natural counts exceed it, a cap bounds the counts
    that are kept. *)
Lemma final_trials_le_max super_seg on_source m symmetric nplus nminus :
  final_trials super_seg on_source (Some m) symmetric = Ok (nplus, nminus) →
  ∃ nplus0 nminus0,
    natural_trials super_seg on_source = Ok (nplus0, nminus0)
    ∧ nplus + nminus ≤ Z.max m (nplus0 + nminus0)
    ∧ nplus + nminus ≤ nplus0 + nminus0
    ∧ (m < nplus0 + nminus0 → nplus + nminus ≤ m).
Proof.
  intros (nplus0 & nminus0 & Hnat & Heq)%final_trials_Ok.
  exists nplus0, nminus0. split; [done |].
  pose proof (symmetrize_le symmetric (truncate_trials (Some m) nplus0 nminus0)) as Hle.
  rewrite <- Heq in Hle. cbn [fst snd] in Hle.
  destruct (truncate_trials_le m nplus0 nminus0) as [Hmax Ht].
  assert ((truncate_trials (Some m) nplus0 nminus0).1
          + (truncate_trials (Some m) nplus0 nminus0).2 ≤ nplus0 + nminus0).
  { unfold truncate_trials.
    assert (2 * (m / 2) ≤ m) by (apply Z.mul_div_le; lia).
    repeat case_bool_decide; simpl; lia. }
  split_and!; [lia | lia |]. intros Hgt. specialize (Ht ltac:(lia)). lia.
Qed.

(** ** The off-source segment *)

(** C7.  On-source [100, 200) in the analyzable list [[0, 1000)], without
    padding or caps and with [symmetric] at its default: the side counts
    are [nplus = 8] and [nminus = 1], the symmetric mode sets both to
    [min 8 1 = 1], and the segment returned is [0, 300). *)
Theorem offsource_example_100_200 :
  find_super_seg [mkseg 0 1000] (mkseg 100 200) default_padding_time
  = Ok (Some (mkseg 0 1000))
  ∧ natural_trials (mkseg 0 1000) (mkseg 100 200) = Ok (8, 1)
  ∧ truncate_trials None 8 1 = (8, 1)
  ∧ symmetrize default_symmetric (8, 1) = (Z.min 8 1, Z.min 8 1)
  ∧ Z.min 8 1 = 1
  ∧ final_trials (mkseg 0 1000) (mkseg 100 200) None default_symmetric = Ok (1, 1)
  ∧ compute_offsource_segment [mkseg 0 1000] (mkseg 100 200)
      default_padding_time None None default_symmetric
    = Ok (Some (mkseg 0 300)).
Proof. vm_compute. repeat split. Qed.

(** C1, as the code has it.  For an on-source segment [S], a padding that
    is not negative and a cap, when given, that is not negative either:
    a returned segment contains [S]; it is [S] extended by [nminus] and
    [nplus] lengths of [S] and then by the padding on either side, so its
    length less twice the padding is [nplus + nminus + 1] times the length
    of [S], [nplus + nminus] being the trial count; and the containment
    test that let it through was made on the first analyzable segment
    around [S] contracted by the padding. *)
Theorem offsource_contains_and_quantized analyzable on_source padding_time
    min_trials max_trials symmetric r :
  wf_segment on_source →
  0 ≤ padding_time →
  (∀ m, max_trials = Some m → 0 ≤ m) →
  compute_offsource_segment analyzable on_source padding_time min_trials
    max_trials symmetric = Ok (Some r) →
  ∃ s nplus nminus,
    first_containing analyzable on_source s
    ∧ seg_contains (contract s padding_time) on_source = true
    ∧ final_trials (contract s padding_time) on_source max_trials symmetric
      = Ok (nplus, nminus)
    ∧ 0 ≤ nplus ∧ 0 ≤ nminus
    ∧ r = mkseg (seg_lo on_source - nminus * seg_abs on_source - padding_time)
                (seg_hi on_source + nplus * seg_abs on_source + padding_time)
    ∧ seg_contains r on_source = true
    ∧ seg_abs r - 2 * padding_time = (nplus + nminus + 1) * seg_abs on_source.
Proof.
  intros Hwf Hpad Hmax H.
  apply compute_offsource_segment_Some in H
    as (super_seg & nplus & nminus & Hs & Hn & _ & ->).
  apply find_super_seg_Some in Hs as (s & Hfirst & -> & Hc).
  exists s, nplus, nminus.
  destruct (final_trials_Ok _ _ _ _ _ _ Hn) as (nplus0 & nminus0 & Hnat & Heq).
  destruct (natural_trials_nonneg _ _ _ _ Hwf Hc Hnat) as (Hq & Hp0 & Hm0 & _).
  destruct (truncate_trials_nonneg max_trials nplus0 nminus0 Hmax Hp0 Hm0)
    as [Ht1 Ht2].
  assert (0 ≤ nplus ∧ 0 ≤ nminus) as [Hp Hm].
  { destruct (truncate_trials max_trials nplus0 nminus0) as [t1 t2].
    unfold symmetrize in Heq. simpl in *.
    destruct symmetric; injection Heq as -> ->; lia. }
  unfold offsource_of. unfold wf_segment in Hwf.
  rewrite new_segment_le by nia.
  split_and!; try done.
  - apply seg_contains_true. simpl. nia.
  - unfold seg_abs. simpl. lia.
Qed.

(** C2.  With a cap [m] that the natural counts exceed: a right side with
    fewer than [m / 2] trials is kept and the left side is cut down to
    what remains of [m]; a left side with fewer than [m / 2] is kept and
    the right side is cut down likewise, the total being [m] in both
    cases; and with [m / 2] or more on both sides, both are set to
    [m / 2].  Whatever the symmetric
    flag, the side counts of a returned segment add up to [m] at most. *)
Theorem max_trials_truncation analyzable on_source padding_time min_trials m
    symmetric super_seg nplus0 nminus0 :
  find_super_seg analyzable on_source padding_time = Ok (Some super_seg) →
  natural_trials super_seg on_source = Ok (nplus0, nminus0) →
  nplus0 + nminus0 > m →
  (nplus0 < m / 2 →
     truncate_trials (Some m) nplus0 nminus0 = (nplus0, m - nplus0)
     ∧ m - nplus0 < nminus0)
  ∧ (nminus0 < m / 2 →
     truncate_trials (Some m) nplus0 nminus0 = (m - nminus0, nminus0)
     ∧ m - nminus0 < nplus0)
  ∧ (m / 2 ≤ nplus0 → m / 2 ≤ nminus0 →
     truncate_trials (Some m) nplus0 nminus0 = (m / 2, m / 2))
  ∧ (∀ r,
       compute_offsource_segment analyzable on_source padding_time min_trials
         (Some m) symmetric = Ok (Some r) →
       ∃ nplus nminus,
         final_trials super_seg on_source (Some m) symmetric = Ok (nplus, nminus)
         ∧ r = offsource_of on_source padding_time nplus nminus
         ∧ nplus + nminus ≤ m).
Proof.
  intros Hs Hnat Hgt.
  assert (2 * (m / 2) ≤ m) by (apply Z.mul_div_le; lia).
  split_and!.
  - intros Hlt. unfold truncate_trials.
    rewrite !bool_decide_eq_true_2 by lia. split; [f_equal |]; lia.
  - intros Hlt. unfold truncate_trials.
    rewrite bool_decide_eq_true_2 by lia.
    rewrite bool_decide_eq_false_2 by lia.
    rewrite bool_decide_eq_true_2 by lia. split; [f_equal |]; lia.
  - intros Hp Hm. unfold truncate_trials.
    rewrite bool_decide_eq_true_2 by lia.
    rewrite !bool_decide_eq_false_2 by lia. done.
  - intros r Hr.
    apply compute_offsource_segment_Some in Hr
      as (super_seg' & nplus & nminus & Hs' & Hn & _ & ->).
    rewrite Hs in Hs'. injection Hs' as <-.
    exists nplus, nminus. split_and!; [done | done |].
    destruct (final_trials_Ok _ _ _ _ _ _ Hn) as (p & q & Hnat' & Heq).
    rewrite Hnat in Hnat'. injection Hnat' as <- <-.
    pose proof (symmetrize_le symmetric (truncate_trials (Some m) nplus0 nminus0)) as Hle.
    rewrite <- Heq in Hle.
    destruct (truncate_trials_le m nplus0 nminus0) as [_ Ht].
    specialize (Ht Hgt). cbn [fst snd] in Hle. lia.
Qed.

(** C3.  A segment returned in symmetric mode is built with both side
    counts equal to the smaller of the two counts that the truncation to
    [max_trials] left, and its margins to the left and to the right of the
    on-source segment are the same. *)
Theorem symmetric_margins_equal analyzable on_source padding_time min_trials
    max_trials r :
  compute_offsource_segment analyzable on_source padding_time min_trials
    max_trials true = Ok (Some r) →
  ∃ super_seg nplus0 nminus0 n,
    find_super_seg analyzable on_source padding_time = Ok (Some super_seg)
    ∧ natural_trials super_seg on_source = Ok (nplus0, nminus0)
    ∧ n = Z.min (truncate_trials max_trials nplus0 nminus0).1
                (truncate_trials max_trials nplus0 nminus0).2
    ∧ final_trials super_seg on_source max_trials true = Ok (n, n)
    ∧ r = offsource_of on_source padding_time n n
    ∧ seg_lo on_source - seg_lo r = seg_hi r - seg_hi on_source
    ∧ Z.abs ((seg_lo on_source - seg_lo r) - (seg_hi r - seg_hi on_source)) ≤ 1.
Proof.
  intros H.
  apply compute_offsource_segment_Some in H
    as (super_seg & nplus & nminus & Hs & Hn & _ & ->).
  destruct (final_trials_Ok _ _ _ _ _ _ Hn) as (nplus0 & nminus0 & Hnat & Heq).
  simpl in Heq. injection Heq as -> ->.
  eexists super_seg, nplus0, nminus0, _.
  split_and!; [done | done | reflexivity | done | done | |].
  - unfold offsource_of, new_segment. case_bool_decide; simpl; lia.
  - unfold offsource_of, new_segment. case_bool_decide; simpl; lia.
Qed.

(** C4, as the code has it.  For an on-source segment whose length is not
    zero, [None] is returned exactly when no analyzable segment contains
    the on-source segment, or the first one that does no longer contains
    it once contracted by the padding, or [min_trials] is given and the
    side counts add up to less; in every other case a segment is
    returned. *)
Theorem offsource_none_iff analyzable on_source padding_time min_trials
    max_trials symmetric :
  seg_abs on_source ≠ 0 →
  (compute_offsource_segment analyzable on_source padding_time min_trials
     max_trials symmetric = Ok None
   ↔ no_containing analyzable on_source
     ∨ (∃ s, first_containing analyzable on_source s
             ∧ seg_contains (contract s padding_time) on_source = false)
     ∨ (∃ s m nplus nminus,
          first_containing analyzable on_source s
          ∧ seg_contains (contract s padding_time) on_source = true
          ∧ min_trials = Some m
          ∧ final_trials (contract s padding_time) on_source max_trials symmetric
            = Ok (nplus, nminus)
          ∧ nplus + nminus < m))
  ∧ (compute_offsource_segment analyzable on_source padding_time min_trials
       max_trials symmetric ≠ Ok None →
     ∃ r, compute_offsource_segment analyzable on_source padding_time
            min_trials max_trials symmetric = Ok (Some r)).
Proof.
  intros Hq.
  destruct (find_super_seg_cases analyzable on_source padding_time)
    as [[Hno Hs] | [(s & Hfirst & Hc & Hs) | (s & Hfirst & Hc & Hs)]].
  - assert (compute_offsource_segment analyzable on_source padding_time
              min_trials max_trials symmetric = Ok None) as ->.
    { rewrite compute_offsource_segment_stages.
      unfold offsource_by_stages. by rewrite Hs. }
    split; [| done]. split; [by left | done].
  - assert (compute_offsource_segment analyzable on_source padding_time
              min_trials max_trials symmetric = Ok None) as ->.
    { rewrite compute_offsource_segment_stages.
      unfold offsource_by_stages. by rewrite Hs. }
    split; [| done]. split; [right; left; eauto | done].
  - destruct (final_trials_total (contract s padding_time) on_source
                max_trials symmetric Hq) as (nplus & nminus & Hn).
    rewrite (compute_offsource_segment_eq _ _ _ _ _ _ _ _ _ Hs Hn).
    assert (∀ P : Prop,
              no_containing analyzable on_source
              ∨ (∃ s, first_containing analyzable on_source s
                      ∧ seg_contains (contract s padding_time) on_source = false)
              ∨ P → P) as Hthird.
    { intros P [Hno | [(s' & Hfirst' & Hc') | HP]]; [| | done].
      - by apply first_containing_not_no in Hfirst.
      - rewrite (first_containing_unique _ _ _ _ Hfirst' Hfirst) in Hc'.
        congruence. }
    destruct min_trials as [m|]; [case_bool_decide as Hlt |].
    + split; [| done]. split; [| done]. intros _. right; right.
      exists s, m, nplus, nminus. done.
    + split; [| eauto]. split; [intros [=] |].
      intros (s' & m' & nplus' & nminus' & Hfirst' & _ & [= <-] & Hn' & Hlt')%Hthird.
      rewrite (first_containing_unique _ _ _ _ Hfirst' Hfirst) in Hn'.
      rewrite Hn in Hn'. injection Hn' as <- <-. lia.
    + split; [| eauto]. split; [done |].
      intros (s' & m & nplus' & nminus' & _ & _ & [=] & _)%Hthird.
Qed.

Lemma offsource_contains_and_quantized_witness :
  seg_contains (mkseg 90 210) (mkseg 100 200) = true
  ∧ ∃ k, seg_abs (mkseg 90 210) - 2 * 10 = k * seg_abs (mkseg 100 200).
Proof.
  destruct (offsource_contains_and_quantized [mkseg 0 1000] (mkseg 100 200) 10
              None None true (mkseg 90 210))
    as (s & nplus & nminus & _ & _ & _ & _ & _ & _ & Hc & Hlen).
  - unfold wf_segment. simpl. lia.
  - lia.
  - intros m [=].
  - vm_compute. reflexivity.
  - split; [exact Hc | exists (nplus + nminus + 1); exact Hlen].
Defined.

(** With a padding of 10 the segment returned around [100, 200) is
    [90, 210): it contains the on-source segment, and its length of 120 is
    no multiple of 100. *)
Lemma offsource_length_not_multiple :
  wf_segment (mkseg 100 200)
  ∧ (∃ s, s ∈ [mkseg 0 1000] ∧ seg_contains s (mkseg 100 200) = true)
  ∧ compute_offsource_segment [mkseg 0 1000] (mkseg 100 200) 10 None None true
    = Ok (Some (mkseg 90 210))
  ∧ ¬ ∃ k, seg_abs (mkseg 90 210) = k * seg_abs (mkseg 100 200).
Proof.
  split_and!.
  - unfold wf_segment. simpl. lia.
  - exists (mkseg 0 1000). split; [by left | reflexivity].
  - vm_compute. reflexivity.
  - intros [k Hk]. unfold seg_abs in Hk. simpl in Hk. lia.
Qed.

(** Without the two sign conditions the containment is lost: a negative
    padding, or a negative cap together with a padding, gives a segment
    that does not contain the on-source segment. *)
Lemma offsource_negative_padding :
  compute_offsource_segment [mkseg 100 200] (mkseg 100 200) (-60) None None true
  = Ok (Some (mkseg 140 160))
  ∧ seg_contains (mkseg 140 160) (mkseg 100 200) = false.
Proof. vm_compute. done. Qed.

Lemma offsource_negative_max_trials :
  compute_offsource_segment [mkseg 0 1000] (mkseg 100 200) 60 None (Some (-1)) true
  = Ok (Some (mkseg 140 160))
  ∧ seg_contains (mkseg 140 160) (mkseg 100 200) = false.
Proof. vm_compute. done. Qed.

Lemma max_trials_truncation_witness :
  truncate_trials (Some 4) 8 1 = (3, 1)
  ∧ ∃ nplus nminus,
      final_trials (mkseg 0 1000) (mkseg 100 200) (Some 4) false = Ok (nplus, nminus)
      ∧ mkseg 0 500 = offsource_of (mkseg 100 200) 0 nplus nminus
      ∧ nplus + nminus ≤ 4.
Proof.
  destruct (max_trials_truncation [mkseg 0 1000] (mkseg 100 200) 0 None 4 false
              (mkseg 0 1000) 8 1) as (_ & Hright & _ & Hres).
  - vm_compute. reflexivity.
  - vm_compute. reflexivity.
  - lia.
  - split.
    + apply Hright. vm_compute. reflexivity.
    + apply Hres. vm_compute. reflexivity.
Defined.

Lemma symmetric_margins_equal_witness :
  seg_lo (mkseg 100 200) - seg_lo (mkseg 0 300)
  = seg_hi (mkseg 0 300) - seg_hi (mkseg 100 200).
Proof.
  destruct (symmetric_margins_equal [mkseg 0 1000] (mkseg 100 200) 0 None None
              (mkseg 0 300)) as (? & ? & ? & ? & _ & _ & _ & _ & _ & Heq & _).
  - vm_compute. reflexivity.
  - exact Heq.
Defined.

(** The symmetric mode undoes the exact fit of the truncation: with a cap
    of 4 the counts [(8, 1)] are cut to [(3, 1)], and then set to
    [(1, 1)]. *)
Lemma symmetric_after_truncation :
  truncate_trials (Some 4) 8 1 = (3, 1)
  ∧ final_trials (mkseg 0 1000) (mkseg 100 200) (Some 4) true = Ok (1, 1)
  ∧ compute_offsource_segment [mkseg 0 1000] (mkseg 100 200) 0 None (Some 4) true
    = Ok (Some (mkseg 0 300)).
Proof. vm_compute. done. Qed.

Lemma offsource_none_iff_witness :
  compute_offsource_segment [mkseg 0 1000] (mkseg 100 200) 0 (Some 3) None true
  = Ok None.
Proof.
  destruct (offsource_none_iff [mkseg 0 1000] (mkseg 100 200) 0 (Some 3) None true)
    as [[_ Hnone] _].
  - vm_compute. discriminate.
  - apply Hnone. right; right.
    exists (mkseg 0 1000), 3, 1, 1. split_and!.
    + exists [], []. split_and!; [done | constructor | reflexivity].
    + reflexivity.
    + reflexivity.
    + vm_compute. reflexivity.
    + lia.
Defined.

(** An on-source segment of length zero inside an analyzable segment:
    none of the conditions for [None] holds, and no segment is returned
    either, the division by the on-source length raising
    [ZeroDivisionError]. *)
Lemma offsource_zero_length_raises :
  first_containing [mkseg 0 1000] (mkseg 100 100) (mkseg 0 1000)
  ∧ seg_contains (contract (mkseg 0 1000) 0) (mkseg 100 100) = true
  ∧ compute_offsource_segment [mkseg 0 1000] (mkseg 100 100) 0 None None true
    = Raise ZeroDivisionError
  ∧ compute_offsource_segment [mkseg 0 1000] (mkseg 100 100) 0 None None true
    ≠ Ok None
  ∧ ¬ ∃ r, compute_offsource_segment [mkseg 0 1000] (mkseg 100 100) 0 None None true
           = Ok (Some r).
Proof.
  split_and!.
  - exists [], []. split_and!; [done | constructor | reflexivity].
  - reflexivity.
  - vm_compute. reflexivity.
  - vm_compute. discriminate.
  - intros [r Hr]. vm_compute in Hr. discriminate.
Qed.

(** ** Masks of boolean arrays *)

Lemma zeros_Ok n z : zeros n = Ok z → Z.of_nat (length z) = n.
Proof.
  unfold zeros. case_bool_decide; [done |]. intros [= <-].
  rewrite length_replicate. lia.
Qed.

Lemma zeros_Raise n e : zeros n = Raise e → e = ValueError.
Proof. unfold zeros. case_bool_decide; [by intros [= <-] | done]. Qed.

Lemma ior_Ok a b m : ior a b = Ok m → length m = length a.
Proof.
  unfold ior. case_decide as Hlen.
  - intros [= <-]. rewrite length_zip_with. lia.
  - destruct b as [|x [|y b]]; try done. intros [= <-]. by rewrite length_fmap.
Qed.

Lemma ior_Raise a b e : ior a b = Raise e → e = ValueError.
Proof.
  unfold ior. case_decide; [done |].
  destruct b as [|x [|y b]]; try done; by intros [= <-].
Qed.

Lemma count_true_nonneg a : 0 ≤ count_true a.
Proof. induction a as [|[] a IH]; simpl; lia. Qed.

Lemma count_true_zero a j : count_true a = 0 → a !! j ≠ Some true.
Proof.
  revert j. induction a as [|b a IH]; intros j H; [done |].
  pose proof (count_true_nonneg a). simpl in H.
  destruct b; [lia |]. destruct j as [|j]; simpl; [done | apply IH; lia].
Qed.

Lemma arange_masked_zero k a : count_true a = 0 → arange_masked k a = [].
Proof.
  revert k. induction a as [|b a IH]; intros k H; [done |].
  pose proof (count_true_nonneg a). simpl in H.
  destruct b; [lia |]. simpl. apply IH. lia.
Qed.

(** An array with one true entry: the masked range is the index of that
    entry. *)
Lemma arange_masked_one k a :
  count_true a = 1 →
  ∃ i, arange_masked k a = [(k + i)%nat] ∧ a !! i = Some true
       ∧ ∀ j, a !! j = Some true → j = i.
Proof.
  revert k. induction a as [|b a IH]; intros k H; [done |].
  simpl in H. destruct b.
  - assert (count_true a = 0) as Hz by lia.
    exists 0%nat. simpl. rewrite (arange_masked_zero _ _ Hz).
    split_and!; [f_equal; lia | done |].
    intros [|j] Hj; [done |]. by apply (count_true_zero _ j) in Hz.
  - destruct (IH (S k)) as (i & Hi & Hlook & Huniq); [lia |].
    exists (S i). simpl. rewrite Hi.
    split_and!; [f_equal; lia | done |].
    intros [|j] Hj; [done |]. f_equal. by apply Huniq.
Qed.

(** ** Trial binning *)

Section TrialsFacts.

Context {LinearBins : Type}.
Variable new_LinearBins : Z → Z → Z → result LinearBins.
Variable bins_spanned : LinearBins → segmentlist → list bool.

Lemma veto_loop_Ok trial_bins mask veto_files m :
  veto_loop bins_spanned trial_bins mask veto_files = Ok m →
  length m = length mask.
Proof.
  revert mask. induction veto_files as [|f fs IH]; intros mask; simpl.
  - by intros [= <-].
  - destruct (ior mask _) as [m'|e] eqn:Hior; simpl; [| done].
    intros ->%IH. by apply ior_Ok in Hior.
Qed.

Lemma veto_loop_Raise trial_bins mask veto_files e :
  veto_loop bins_spanned trial_bins mask veto_files = Raise e →
  e = ValueError.
Proof.
  revert mask. induction veto_files as [|f fs IH]; intros mask; simpl.
  - done.
  - destruct (ior mask _) as [m'|e'] eqn:Hior; simpl; [by apply IH |].
    intros [= <-]. by apply ior_Raise in Hior.
Qed.

Lemma trial_binning_Ok on_segs off_segs num_trials trial_bins :
  trial_binning new_LinearBins on_segs off_segs = Ok (num_trials, trial_bins) →
  list_abs on_segs ≠ 0
  ∧ list_abs off_segs mod list_abs on_segs = 0
  ∧ ∃ ext, extent off_segs = Ok ext
           ∧ num_trials = seg_abs ext / list_abs on_segs
           ∧ new_LinearBins (seg_lo ext) (seg_hi ext) num_trials = Ok trial_bins.
Proof.
  unfold trial_binning, pymod, floordiv.
  destruct (decide (list_abs on_segs = 0)) as [Hz | Hz]; [done |]. simpl.
  case_decide as Hr; [done |].
  destruct (extent off_segs) as [ext|e]; simpl; [| done].
  destruct (new_LinearBins _ _ _) as [b|e] eqn:Hb; simpl; [| done].
  intros [= <- <-]. split_and!; [done | | eauto].
  destruct (decide (list_abs off_segs mod list_abs on_segs = 0)); done.
Qed.

End TrialsFacts.

(** C8, as the code has it.  When the total on-source duration is not
    zero and the total off-source duration is no integer multiple of it,
    [get_exttrig_trials] raises [ValueError]. *)
Theorem exttrig_trials_not_divisible {LinearBins : Type}
    (new_LinearBins : Z → Z → Z → result LinearBins)
    (bins_spanned : LinearBins → segmentlist → list bool)
    (on_segs off_segs : segmentlist) (veto_files : list segmentlist) :
  list_abs on_segs ≠ 0 →
  ¬ (∃ k, list_abs off_segs = k * list_abs on_segs) →
  get_exttrig_trials new_LinearBins bins_spanned on_segs off_segs veto_files
  = Raise ValueError.
Proof.
  intros Hz Hmul. unfold get_exttrig_trials, trial_binning, pymod.
  destruct (decide (list_abs on_segs = 0)); [done |]. simpl.
  case_decide as Hr; [done |]. exfalso. apply Hmul.
  exists (list_abs off_segs / list_abs on_segs).
  rewrite (Z.div_mod (list_abs off_segs) (list_abs on_segs)) at 1 by done.
  lia.
Qed.

Lemma exttrig_trials_not_divisible_witness :
  get_exttrig_trials spec_LinearBins spec_bins_spanned
    [mkseg 100 200] [mkseg 0 250] [] = Raise ValueError.
Proof.
  apply exttrig_trials_not_divisible.
  - vm_compute. discriminate.
  - intros [k Hk]. cbv [list_abs seg_abs foldr seg_lo seg_hi] in Hk. lia.
Defined.

(** With an empty on-source list the off-source duration of 250 is no
    multiple of the on-source duration of zero, and the failure is the
    [ZeroDivisionError] of the modulo, not a [ValueError]. *)
Lemma exttrig_trials_zero_on_source :
  (¬ ∃ k, list_abs [mkseg 0 250] = k * list_abs [])
  ∧ get_exttrig_trials spec_LinearBins spec_bins_spanned [] [mkseg 0 250] []
    = Raise ZeroDivisionError
  ∧ get_exttrig_trials spec_LinearBins spec_bins_spanned [] [mkseg 0 250] []
    ≠ Raise ValueError.
Proof.
  split_and!.
  - intros [k Hk]. cbv [list_abs seg_abs foldr seg_lo seg_hi] in Hk. lia.
  - vm_compute. reflexivity.
  - vm_compute. discriminate.
Qed.

(** C9.  On a successful return the veto mask has as many entries as
    there are trial bins, that number being the length of the off-source
    extent divided by the on-source duration; the on-source mask has one
    true entry, and the index returned is the index of that entry.  When
    the bins are built and the on-source mask has no true entry or more
    than one, [ValueError] is raised. *)
Theorem exttrig_trials_one_bin {LinearBins : Type}
    (new_LinearBins : Z → Z → Z → result LinearBins)
    (bins_spanned : LinearBins → segmentlist → list bool)
    (on_segs off_segs : segmentlist) (veto_files : list segmentlist) :
  (∀ trial_bins trial_veto_mask onsource_ind,
     get_exttrig_trials new_LinearBins bins_spanned on_segs off_segs veto_files
     = Ok (trial_bins, trial_veto_mask, onsource_ind) →
     ∃ ext num_trials,
       extent off_segs = Ok ext
       ∧ num_trials = seg_abs ext / list_abs on_segs
       ∧ trial_binning new_LinearBins on_segs off_segs = Ok (num_trials, trial_bins)
       ∧ Z.of_nat (length trial_veto_mask) = num_trials
       ∧ count_true (bins_spanned trial_bins on_segs) = 1
       ∧ ∃ i, onsource_ind = [i]
              ∧ (i < length (bins_spanned trial_bins on_segs))%nat
              ∧ bins_spanned trial_bins on_segs !! i = Some true
              ∧ ∀ j, bins_spanned trial_bins on_segs !! j = Some true → j = i)
  ∧ (∀ num_trials trial_bins,
       trial_binning new_LinearBins on_segs off_segs = Ok (num_trials, trial_bins) →
       count_true (bins_spanned trial_bins on_segs) ≠ 1 →
       get_exttrig_trials new_LinearBins bins_spanned on_segs off_segs veto_files
       = Raise ValueError).
Proof.
  split.
  - intros trial_bins mask ind H. unfold get_exttrig_trials in H.
    destruct (trial_binning new_LinearBins on_segs off_segs)
      as [[num_trials bins]|e] eqn:Hb; simpl in H; [| done].
    destruct (zeros num_trials) as [zero|e] eqn:Hz; simpl in H; [| done].
    destruct (veto_loop bins_spanned bins zero veto_files) as [m|e] eqn:Hv;
      simpl in H; [| done].
    case_decide as Hc; [done |]. injection H as <- <- <-.
    destruct (trial_binning_Ok _ _ _ _ _ Hb) as (_ & _ & ext & Hext & Hn & _).
    exists ext, num_trials. split_and!; try done.
    + apply veto_loop_Ok in Hv. rewrite Hv. by apply zeros_Ok.
    + destruct (arange_masked_one 0 _ Hc) as (i & Hi & Hlook & Huniq).
      exists i. split_and!; [done | by eapply lookup_lt_Some | done | done].
  - intros num_trials bins Hb Hc. unfold get_exttrig_trials. rewrite Hb. simpl.
    destruct (zeros num_trials) as [zero|e] eqn:Hz; simpl;
      [| by apply zeros_Raise in Hz as ->].
    destruct (veto_loop bins_spanned bins zero veto_files) as [m|e] eqn:Hv; simpl;
      [| by apply veto_loop_Raise in Hv as ->].
    by case_decide.
Qed.

Lemma exttrig_trials_one_bin_witness :
  Z.of_nat (length [false; false; true]) = 3
  ∧ get_exttrig_trials spec_LinearBins spec_bins_spanned
      [mkseg 100 250] [mkseg 0 300] [] = Raise ValueError.
Proof.
  destruct (exttrig_trials_one_bin spec_LinearBins spec_bins_spanned
              [mkseg 100 200] [mkseg 0 300] [[mkseg 250 260]; []]) as [Hret _].
  destruct (Hret (mk_spec_bins 0 300 3) [false; false; true] [1%nat])
    as (ext & num_trials & Hext & -> & _ & Hlen & _).
  { vm_compute. reflexivity. }
  injection Hext as <-.
  destruct (exttrig_trials_one_bin spec_LinearBins spec_bins_spanned
              [mkseg 100 250] [mkseg 0 300] []) as [_ Hraise].
  split.
  - exact Hlen.
  - apply (Hraise 2 (mk_spec_bins 0 300 2)).
    + vm_compute. reflexivity.
    + vm_compute. discriminate.
Defined.

(** ** Masked segments *)

(** C6 at analyzable [[0, 1000)], on-source [400, 500) and a quantization
    of 100.  The gaps [0, 400) and [500, 1000) are replaced by
    [0, 4) and [500, 505): the end is the start plus the number of whole
    quanta, not plus that number of quanta times their width, and the
    lengths 4 and 5 left in the analyzable list outside the mask are no
    multiples of 100. *)
Theorem masked_segments_quantized_gaps :
  compute_masked_segments [mkseg 0 1000] (mkseg 400 500) None (Some 100)
  = Ok ([mkseg 0 400; mkseg 500 1000], [mkseg 4 500; mkseg 505 1000])
  ∧ seglist_sub [mkseg 0 1000] [mkseg 4 500; mkseg 505 1000]
    = [mkseg 0 4; mkseg 500 505]
  ∧ seg_abs (mkseg 0 4) = 400 / 100
  ∧ seg_abs (mkseg 500 505) = 500 / 100
  ∧ ¬ (∃ k, seg_abs (mkseg 0 4) = k * 100)
  ∧ ¬ (∃ k, seg_abs (mkseg 500 505) = k * 100).
Proof.
  split_and!; try (vm_compute; reflexivity).
  - intros [k Hk]. cbv [list_abs seg_abs foldr seg_lo seg_hi] in Hk. lia.
  - intros [k Hk]. cbv [list_abs seg_abs foldr seg_lo seg_hi] in Hk. lia.
Qed.

(** ** Combinations *)

Lemma elem_of_choices {A} (vals : list A) n c :
  c ∈ choices vals n ↔ c `sublist_of` vals ∧ length c = n.
Proof.
  revert n c. induction vals as [|v vals IH]; intros [|n] c; simpl.
  - rewrite list_elem_of_singleton, sublist_nil_r. split; [by intros -> | by intros [-> _]].
  - rewrite elem_of_nil, sublist_nil_r. split; [done | by intros [-> ?]].
  - rewrite list_elem_of_singleton. split.
    + intros ->. split; [apply sublist_nil_l | done].
    + intros [_ Hlen]. by destruct c.
  - rewrite elem_of_app, list_elem_of_fmap, sublist_cons_r. split.
    + intros [(c' & -> & Hc') | Hc].
      * apply IH in Hc' as [Hsub <-]. split; [right; eauto | done].
      * apply IH in Hc as [Hsub Hlen]. split; [by left | done].
    + intros [[Hsub | (c' & -> & Hsub)] Hlen].
      * right. apply IH. done.
      * left. exists c'. split; [done |]. apply IH. simpl in Hlen. split; [done | lia].
Qed.

Lemma elem_of_xrange_down start stop n :
  n ∈ xrange_down start stop ↔ (stop < n ≤ start)%nat.
Proof. unfold xrange_down. rewrite elem_of_reverse, elem_of_seq. lia. Qed.

Lemma xrange_down_sorted start stop :
  StronglySorted (fun a b : nat => (b < a)%nat) (xrange_down start stop).
Proof.
  unfold xrange_down. generalize (start - stop)%nat as k. intros k.
  induction k as [|k IH]; [constructor |].
  rewrite seq_S, reverse_snoc. constructor; [done |].
  apply Forall_forall. intros b. rewrite elem_of_reverse, elem_of_seq. lia.
Qed.

(** The combinations tried are the sublists of two or more detectors. *)
Lemma elem_of_test_combos ifos c :
  c ∈ test_combos ifos ↔ c `sublist_of` ifos ∧ (2 ≤ length c)%nat.
Proof.
  unfold test_combos. rewrite list_elem_of_join. split.
  - intros (l & Hc & (n & -> & Hn)%list_elem_of_fmap).
    apply elem_of_choices in Hc as [Hsub <-].
    apply elem_of_xrange_down in Hn. split; [done | lia].
  - intros [Hsub Hlen]. exists (choices ifos (length c)). split.
    + by apply elem_of_choices.
    + apply list_elem_of_fmap. exists (length c). split; [done |].
      apply elem_of_xrange_down. apply sublist_length in Hsub. lia.
Qed.

(** The choices from a ranked list come in lexicographic order. *)
Lemma choices_sorted {A} (R : relation A) (vals : list A) n :
  StronglySorted R vals → StronglySorted (lex_lt R) (choices vals n).
Proof.
  intros Hs. revert n. induction Hs as [|v vals Hs IH Hv]; intros [|n]; simpl.
  - repeat constructor.
  - constructor.
  - repeat constructor.
  - apply StronglySorted_app_2.
    + intros c1 c2 (c' & -> & _)%list_elem_of_fmap [Hsub Hlen]%elem_of_choices.
      destruct c2 as [|y c2]; [done |].
      apply lex_lt_head. rewrite Forall_forall in Hv. apply Hv.
      apply sublist_cons_l in Hsub as (k1 & k2 & -> & _).
      apply elem_of_app. right. by left.
    + apply (StronglySorted_fmap _ (lex_lt R)); [| apply IH].
      intros. by apply lex_lt_tail.
    + apply IH.
Qed.

(** Combinations are tried by size, the largest first, and in ranking
    order within a size. *)
Lemma test_combos_sorted ifos :
  StronglySorted more_sensitive ifos →
  StronglySorted combo_before (test_combos ifos).
Proof.
  intros Hs. unfold test_combos.
  pose proof (xrange_down_sorted (length ifos) 1) as Hsizes.
  induction Hsizes as [|n sizes Hsizes IH Hn]; [constructor |].
  rewrite fmap_cons. simpl. apply StronglySorted_app_2.
  - intros c1 c2 [_ Hlen1]%elem_of_choices
      (l & Hc2 & (m & -> & Hm)%list_elem_of_fmap)%list_elem_of_join.
    apply elem_of_choices in Hc2 as [_ Hlen2].
    rewrite Forall_forall in Hn. specialize (Hn m Hm).
    left. lia.
  - pose proof (choices_sorted more_sensitive ifos n Hs) as Hch.
    assert (Forall (fun c => length c = n) (choices ifos n)) as Hlen.
    { apply Forall_forall. by intros c [_ ?]%elem_of_choices. }
    induction Hch as [|c cs Hcs IHcs Hc]; [constructor |].
    apply Forall_cons in Hlen as [Hlc Hlcs].
    constructor; [by apply IHcs |].
    rewrite Forall_forall in Hc, Hlcs. apply Forall_forall.
    intros c' Hc'. right. split; [| by apply Hc].
    rewrite Hlc. symmetry. by apply Hlcs.
  - done.
Qed.

(** ** Sorting *)

Lemma sort_insert_Permutation {A} (cmp : A → A → result comparison) x l l' :
  sort_insert cmp x l = Ok l' → l' ≡ₚ x :: l.
Proof.
  revert l'. induction l as [|y l IH]; intros l'; simpl.
  - by intros [= <-].
  - destruct (cmp x y) as [c|e]; simpl; [| done].
    destruct c; try by intros [= <-].
    destruct (sort_insert cmp x l) as [l''|e]; simpl; [| done].
    intros [= <-]. rewrite (IH l'' eq_refl). apply Permutation_swap.
Qed.

Lemma sort_cmp_Permutation {A} (cmp : A → A → result comparison) l l' :
  sort_cmp cmp l = Ok l' → l' ≡ₚ l.
Proof.
  revert l'. induction l as [|x l IH]; intros l'; simpl.
  - by intros [= <-].
  - destruct (sort_cmp cmp l) as [s|e]; simpl; [| done].
    intros ->%sort_insert_Permutation. by rewrite (IH s eq_refl).
Qed.

Lemma sensitivity_cmp_Ok ifo1 ifo2 c :
  sensitivity_cmp ifo1 ifo2 = Ok c →
  ∃ r1 r2, sensitivity_dict !! ifo1 = Some r1
           ∧ sensitivity_dict !! ifo2 = Some r2 ∧ c = (r1 ?= r2).
Proof.
  unfold sensitivity_cmp, dict_getitem.
  destruct (sensitivity_dict !! ifo1) as [r1|]; simpl; [| done].
  destruct (sensitivity_dict !! ifo2) as [r2|]; simpl; [| done].
  intros [= <-]. eauto.
Qed.

(** No two detectors share a rank. *)
Lemma sensitivity_dict_inj a b r :
  sensitivity_dict !! a = Some r → sensitivity_dict !! b = Some r → a = b.
Proof.
  unfold sensitivity_dict. simpl.
  intros Ha Hb.
  repeat (rewrite lookup_insert in Ha; case_decide; simplify_eq);
    repeat (rewrite lookup_insert in Hb; case_decide; simplify_eq);
    try done.
Qed.

#[local] Instance at_least_as_sensitive_trans : Transitive at_least_as_sensitive.
Proof.
  intros a b c (ra & rb & Ha & Hb & Hab) (rb' & rc & Hb' & Hc & Hbc).
  exists ra, rc. simplify_eq. split_and!; [done | done | lia].
Qed.

Lemma sort_insert_sorted x l l' :
  Sorted at_least_as_sensitive l →
  sort_insert sensitivity_cmp x l = Ok l' →
  Sorted at_least_as_sensitive l'
  ∧ ∀ y, at_least_as_sensitive y x → HdRel at_least_as_sensitive y l →
         HdRel at_least_as_sensitive y l'.
Proof.
  revert l'. induction l as [|z l IH]; intros l' Hs; simpl.
  - intros [= <-]. split; [repeat constructor |]. intros y Hy _. by constructor.
  - destruct (sensitivity_cmp x z) as [c|e] eqn:Hc; simpl; [| done].
    apply sensitivity_cmp_Ok in Hc as (rx & rz & Hx & Hz & ->).
    apply Sorted_inv in Hs as [Hs Hhd].
    destruct (Z.compare_spec rx rz) as [Heq | Hlt | Hgt].
    + intros [= <-]. split.
      * constructor; [by constructor |]. constructor. exists rx, rz. split_and!; [done | done | lia].
      * intros y Hy _. by constructor.
    + intros [= <-]. split.
      * constructor; [by constructor |]. constructor. exists rx, rz. split_and!; [done | done | lia].
      * intros y Hy _. by constructor.
    + destruct (sort_insert sensitivity_cmp x l) as [l''|e]; simpl; [| done].
      intros [= <-]. destruct (IH l'' Hs eq_refl) as [Hs'' Hhd''].
      split.
      * constructor; [done |]. apply Hhd''; [| done].
        exists rz, rx. split_and!; [done | done | lia].
      * intros y _ Hy. apply HdRel_inv in Hy. by constructor.
Qed.

Lemma sort_cmp_sorted l l' :
  sort_cmp sensitivity_cmp l = Ok l' → Sorted at_least_as_sensitive l'.
Proof.
  revert l'. induction l as [|x l IH]; intros l'; simpl.
  - intros [= <-]. constructor.
  - destruct (sort_cmp sensitivity_cmp l) as [s|e]; simpl; [| done].
    intros H. by apply (sort_insert_sorted x s l' (IH s eq_refl)).
Qed.

Lemma sorted_strictly l :
  NoDup l → StronglySorted at_least_as_sensitive l →
  StronglySorted more_sensitive l.
Proof.
  intros Hnd Hs. induction Hs as [|x l Hs IH Hx]; [constructor |].
  apply NoDup_cons in Hnd as [Hnotin Hnd].
  constructor; [by apply IH |].
  rewrite Forall_forall in Hx. apply Forall_forall.
  intros y Hy. destruct (Hx y Hy) as (rx & ry & Hrx & Hry & Hle).
  exists rx, ry. split_and!; [done | done |].
  destruct (decide (rx = ry)) as [-> | Hne]; [| lia].
  rewrite (sensitivity_dict_inj _ _ _ Hrx Hry) in Hnotin. done.
Qed.

#[local] Instance string_le_total : Total string_le.
Proof. intros a b. unfold string_le. apply String.leb_total. Qed.

Lemma sort_strings_sorted l :
  Sorted string_le (sort_strings l) ∧ sort_strings l ≡ₚ l.
Proof.
  split; [apply Sorted_merge_sort, _ | apply merge_sort_Permutation].
Qed.

(** ** The sieved dictionary *)

Lemma find_Ok l item i :
  find l item = Ok i → ∃ s, l !! i = Some s ∧ first_containing l item s.
Proof.
  revert i. induction l as [|x l IH]; intros i; simpl; [done |].
  destruct (seg_contains x item) eqn:Hx.
  - intros [= <-]. exists x. split; [done |].
    exists [], l. split_and!; [done | constructor | done].
  - destruct (find l item) as [j|e]; simpl; [| done].
    intros [= <-]. destruct (IH j eq_refl) as (s & Hs & pre & post & -> & Hpre & Hc).
    exists s. split; [done |].
    exists (x :: pre), post. split_and!; [done | by constructor | done].
Qed.

Lemma find_Raise l item e : find l item = Raise e → no_containing l item.
Proof.
  induction l as [|x l IH]; simpl; [by constructor |].
  destruct (seg_contains x item) eqn:Hx; [done |].
  destruct (find l item) as [j|e']; simpl; [done |].
  intros [= <-]. constructor; [done | by apply IH].
Qed.

Lemma first_containing_elem_of l item s :
  first_containing l item s → s ∈ l ∧ seg_contains s item = true.
Proof.
  intros (pre & post & -> & _ & Hc). split; [| done].
  apply elem_of_app. right. by left.
Qed.

Lemma new_analyzable_dict_Some analyzable_dict on_source ifo l :
  new_analyzable_dict analyzable_dict on_source !! ifo = Some l
  ↔ ∃ seglist s, analyzable_dict !! ifo = Some seglist
                 ∧ first_containing seglist on_source s ∧ l = [s].
Proof.
  unfold new_analyzable_dict. rewrite lookup_omap_Some. split.
  - intros (seglist & Hf & Hd). exists seglist.
    destruct (find seglist on_source) as [i|e] eqn:Hfind; [| done].
    apply find_Ok in Hfind as (s & Hi & Hs). rewrite Hi in Hf.
    injection Hf as <-. eauto.
  - intros (seglist & s & Hd & Hs & ->). exists seglist. split; [| done].
    destruct (find seglist on_source) as [i|e] eqn:Hfind.
    + apply find_Ok in Hfind as (s' & Hi & Hs').
      rewrite Hi. simpl. by rewrite (first_containing_unique _ _ _ _ Hs Hs').
    + apply find_Raise in Hfind. by apply first_containing_not_no in Hs.
Qed.

Lemma new_analyzable_dict_None analyzable_dict on_source ifo seglist :
  analyzable_dict !! ifo = Some seglist →
  no_containing seglist on_source →
  new_analyzable_dict analyzable_dict on_source !! ifo = None.
Proof.
  intros Hd Hno. apply eq_None_not_Some. intros [l Hl].
  apply new_analyzable_dict_Some in Hl as (seglist' & s & Hd' & Hs & _).
  simplify_eq. by apply first_containing_not_no in Hs.
Qed.

(** The detectors kept, in ranking order. *)
Lemma analyzable_ifos_Ok analyzable_dict on_source ifos :
  analyzable_ifos analyzable_dict on_source = Ok ifos →
  NoDup ifos
  ∧ (∀ ifo, ifo ∈ ifos
            ↔ is_Some (new_analyzable_dict analyzable_dict on_source !! ifo))
  ∧ StronglySorted more_sensitive ifos.
Proof.
  unfold analyzable_ifos. intros H.
  pose proof (sort_cmp_Permutation _ _ _ H) as Hperm.
  pose proof (NoDup_fst_map_to_list
                (new_analyzable_dict analyzable_dict on_source)) as Hnd.
  rewrite <- Hperm in Hnd. split_and!; [done | |].
  - intros ifo. rewrite Hperm, list_elem_of_fmap. split.
    + intros ([k l] & -> & Hkl%elem_of_map_to_list). by exists l.
    + intros [l Hl]. exists (ifo, l). split; [done |]. by apply elem_of_map_to_list.
  - apply sorted_strictly; [done |].
    apply Sorted_StronglySorted; [apply _ |]. by eapply sort_cmp_sorted.
Qed.

Lemma new_analyzable_dict_delete analyzable_dict on_source ifo seglist :
  analyzable_dict !! ifo = Some seglist →
  no_containing seglist on_source →
  new_analyzable_dict (delete ifo analyzable_dict) on_source
  = new_analyzable_dict analyzable_dict on_source.
Proof.
  intros Hd Hno. unfold new_analyzable_dict at 1. rewrite omap_delete.
  apply delete_id. by eapply new_analyzable_dict_None.
Qed.

(** ** The loop over the combinations *)

Lemma remove_dups_NoDup {A} `{EqDecision A} (l : list A) :
  NoDup l → remove_dups l = l.
Proof.
  induction 1 as [|x l Hx Hnd IH]; simpl; [done |].
  destruct (decide_rel (∈) x l); [done | by rewrite IH].
Qed.

Lemma intersection_singletons d keys segs :
  NoDup keys →
  Forall2 (fun key s => d !! key = Some [s]) keys segs →
  intersection d keys = Ok (common_time segs).
Proof.
  intros Hnd Hall. unfold intersection. rewrite remove_dups_NoDup by done.
  destruct Hall as [|key s keys segs Hkey Hall]; [done |].
  assert (dict_getitem d key = Ok [s]) as -> by (unfold dict_getitem; by rewrite Hkey).
  simpl. generalize [s] as acc. clear Hnd Hkey.
  induction Hall as [|key' s' keys segs Hkey' Hall IH]; intros acc; [done |].
  simpl.
  assert (dict_getitem d key' = Ok [s']) as -> by (unfold dict_getitem; by rewrite Hkey').
  simpl. apply IH.
Qed.

Lemma Forall2_exists {A B} (P : A → B → Prop) (l : list A) :
  (∀ x, x ∈ l → ∃ y, P x y) → ∃ k, Forall2 P l k.
Proof.
  induction l as [|x l IH]; intros H.
  - exists []. constructor.
  - destruct (H x) as [y Hy]; [by left |].
    destruct IH as [k Hk]; [intros z Hz; apply H; by right |].
    exists (y :: k). by constructor.
Qed.

Lemma first_offsource_success d on_source kw pre c post seg :
  Forall (fun c' => try_combo d on_source kw c' = Ok None) pre →
  try_combo d on_source kw c = Ok (Some seg) →
  first_offsource d on_source kw (pre ++ c :: post)
  = Ok (Some seg, sort_strings c).
Proof.
  intros Hpre Hc. induction Hpre as [|c' pre Hc' Hpre IH]; simpl.
  - by rewrite Hc.
  - by rewrite Hc'.
Qed.

Lemma first_offsource_none d on_source kw combos :
  Forall (fun c => try_combo d on_source kw c = Ok None) combos →
  first_offsource d on_source kw combos = Ok (None, []).
Proof.
  induction 1 as [|c combos Hc Hall IH]; simpl; [done |]. by rewrite Hc.
Qed.

Lemma first_offsource_Ok d on_source kw combos o combo :
  first_offsource d on_source kw combos = Ok (o, combo) →
  (o = None ∧ combo = []
   ∧ Forall (fun c => try_combo d on_source kw c = Ok None) combos)
  ∨ (∃ seg pre c post,
       o = Some seg ∧ combos = pre ++ c :: post
       ∧ Forall (fun c' => try_combo d on_source kw c' = Ok None) pre
       ∧ try_combo d on_source kw c = Ok (Some seg)
       ∧ combo = sort_strings c).
Proof.
  induction combos as [|c combos IH]; simpl.
  - intros [= <- <-]. left. split_and!; [done | done | constructor].
  - destruct (try_combo d on_source kw c) as [[seg|]|e] eqn:Hc; simpl; [| | done].
    + intros [= <- <-]. right. exists seg, [], c, combos.
      split_and!; [done | done | constructor | done | done].
    + intros [(-> & -> & Hall) | (seg & pre & c' & post & -> & -> & Hpre & Hc' & ->)]%IH.
      * left. split_and!; [done | done | by constructor].
      * right. exists seg, (c :: pre), c', post.
        split_and!; [done | done | by constructor | done | done].
Qed.

(** The time common to segments around an on-source segment of positive
    length is one segment: the largest one inside all of them. *)
Lemma common_time_containing on_source segs :
  seg_lo on_source < seg_hi on_source →
  segs ≠ [] →
  Forall (fun t => seg_contains t on_source = true) segs →
  ∃ s, common_time segs = [s]
       ∧ seg_contains s on_source = true
       ∧ Forall (fun t => seg_contains t s = true) segs
       ∧ ∀ u, wf_segment u → Forall (fun t => seg_contains t u = true) segs →
              seg_contains s u = true.
Proof.
  intros Hpos Hne Hall. destruct Hall as [|s0 segs Hs0 Hall]; [done |].
  simpl. clear Hne.
  assert (∃ s, foldl (fun acc s' => seglist_and acc [s']) [s0] segs = [s]
               ∧ seg_contains s on_source = true
               ∧ seg_contains s0 s = true
               ∧ Forall (fun t => seg_contains t s = true) segs
               ∧ ∀ u, wf_segment u → seg_contains s0 u = true →
                      Forall (fun t => seg_contains t u = true) segs →
                      seg_contains s u = true) as (s & Hs & Hc & H0 & Hsegs & Hmax).
  { revert s0 Hs0. induction Hall as [|t segs Ht Hall IH]; intros s0 Hs0.
    - exists s0. split_and!; [done | done | | constructor | done].
      apply seg_contains_true. lia.
    - simpl. unfold seg_and.
      apply seg_contains_true in Hs0 as [Hs0l Hs0h].
      pose proof Ht as [Htl Hth]%seg_contains_true.
      rewrite bool_decide_eq_true_2 by lia. simpl.
      destruct (IH (mkseg (Z.max (seg_lo s0) (seg_lo t))
                          (Z.min (seg_hi s0) (seg_hi t))))
        as (s & Hs & Hc & H0 & Hsegs & Hmax).
      { apply seg_contains_true. simpl. lia. }
      exists s. apply seg_contains_true in H0 as [H0l H0h]. simpl in *.
      split_and!; [done | done | | |].
      + apply seg_contains_true. lia.
      + constructor; [apply seg_contains_true; lia | done].
      + intros u Hu [Hul Huh]%seg_contains_true [Htu Hrest]%Forall_cons.
        apply seg_contains_true in Htu as [Htul Htuh].
        apply Hmax; [done | | done].
        apply seg_contains_true. simpl. lia. }
  exists s. split_and!; [done | done | by constructor |].
  intros u Hu [H0u Hrest]%Forall_cons. by apply Hmax.
Qed.

(** ** Several detectors *)

(** C5.  With the detectors that have a segment around the on-source
    segment ranked by sensitivity ([ifos]): the combinations tried are the
    sublists of [ifos] with two detectors or more, the larger ones first and
    those of one size in ranking order; for each of them the segments
    around the on-source segment of its detectors are intersected and
    [compute_offsource_segment] is called on the result; the first
    combination for which a segment comes back is returned with it, as a
    sorted list; and when [None] comes back for all of them, [None] and
    the empty list are returned. *)
Theorem multi_ifo_first_success analyzable_dict on_source kw ifos :
  analyzable_ifos analyzable_dict on_source = Ok ifos →
  StronglySorted more_sensitive ifos
  ∧ (∀ ifo, ifo ∈ ifos
            ↔ ∃ seglist s, analyzable_dict !! ifo = Some seglist
                           ∧ first_containing seglist on_source s)
  ∧ StronglySorted combo_before (test_combos ifos)
  ∧ (∀ c, c ∈ test_combos ifos ↔ c `sublist_of` ifos ∧ (2 ≤ length c)%nat)
  ∧ (∀ c, c ∈ test_combos ifos →
       ∃ segs,
         Forall2 (fun ifo s =>
                    ∃ seglist, analyzable_dict !! ifo = Some seglist
                               ∧ first_containing seglist on_source s) c segs
         ∧ try_combo (new_analyzable_dict analyzable_dict on_source) on_source kw c
           = compute_offsource_segment (common_time segs) on_source
               (padding_time kw) (min_trials kw) (max_trials kw) (symmetric kw)
         ∧ (seg_lo on_source < seg_hi on_source →
            ∃ s, common_time segs = [s]
                 ∧ seg_contains s on_source = true
                 ∧ Forall (fun t => seg_contains t s = true) segs
                 ∧ ∀ u, wf_segment u →
                        Forall (fun t => seg_contains t u = true) segs →
                        seg_contains s u = true))
  ∧ (∀ pre c post seg,
       test_combos ifos = pre ++ c :: post →
       Forall (fun c' =>
                 try_combo (new_analyzable_dict analyzable_dict on_source)
                   on_source kw c' = Ok None) pre →
       try_combo (new_analyzable_dict analyzable_dict on_source) on_source kw c
       = Ok (Some seg) →
       multi_ifo_compute_offsource_segment analyzable_dict on_source kw
       = Ok (Some seg, sort_strings c)
       ∧ Sorted string_le (sort_strings c) ∧ sort_strings c ≡ₚ c)
  ∧ (Forall (fun c =>
               try_combo (new_analyzable_dict analyzable_dict on_source)
                 on_source kw c = Ok None) (test_combos ifos) →
     multi_ifo_compute_offsource_segment analyzable_dict on_source kw
     = Ok (None, [])).
Proof.
  intros Hifos.
  destruct (analyzable_ifos_Ok _ _ _ Hifos) as (Hnd & Hin & Hsorted).
  assert (∀ ifo, ifo ∈ ifos
            ↔ ∃ seglist s, analyzable_dict !! ifo = Some seglist
                           ∧ first_containing seglist on_source s) as Hin'.
  { intros ifo. rewrite Hin. split.
    - intros [l (seglist & s & Hd & Hs & _)%new_analyzable_dict_Some]. eauto.
    - intros (seglist & s & Hd & Hs). exists [s].
      apply new_analyzable_dict_Some. eauto. }
  split_and!.
  - done.
  - done.
  - by apply test_combos_sorted.
  - apply elem_of_test_combos.
  - intros c [Hsub Hlen]%elem_of_test_combos.
    destruct (Forall2_exists
                (fun ifo s => ∃ seglist, analyzable_dict !! ifo = Some seglist
                                         ∧ first_containing seglist on_source s) c)
      as [segs Hsegs].
    { intros ifo Hifo. apply sublist_subseteq in Hsub.
      destruct (proj1 (Hin' ifo) (Hsub _ Hifo)) as (seglist & s & ?). eauto. }
    exists segs. split_and!; [done | |].
    + unfold try_combo. rewrite (intersection_singletons _ c segs); [done | |].
      * by eapply sublist_NoDup.
      * eapply Forall2_impl; [exact Hsegs |]. simpl.
        intros ifo s (seglist & Hd & Hs). apply new_analyzable_dict_Some. eauto.
    + intros Hpos. apply common_time_containing; [done | |].
      * apply Forall2_length in Hsegs. destruct segs; [simpl in *; lia | done].
      * clear -Hsegs. induction Hsegs as [|ifo s c segs (seglist & _ & Hs) _ IH];
          constructor; [| done].
        by apply first_containing_elem_of in Hs as [_ ?].
  - intros pre c post seg Hsplit Hpre Hc.
    unfold multi_ifo_compute_offsource_segment. rewrite Hifos. simpl.
    rewrite Hsplit. split; [by apply first_offsource_success |].
    apply sort_strings_sorted.
  - intros Hall. unfold multi_ifo_compute_offsource_segment. rewrite Hifos. simpl.
    by apply first_offsource_none.
Qed.

(** C10.  A detector without a segment around the on-source segment is
    left out of the sieved dictionary, and the outcome is that of the call
    on the dictionary without it; no combination tried has such a
    detector; and every detector of a combination returned has a segment
    around the on-source segment in its list. *)
Theorem multi_ifo_drops_uncovered analyzable_dict on_source kw :
  (∀ ifo seglist,
     analyzable_dict !! ifo = Some seglist →
     no_containing seglist on_source →
     new_analyzable_dict analyzable_dict on_source !! ifo = None
     ∧ multi_ifo_compute_offsource_segment analyzable_dict on_source kw
       = multi_ifo_compute_offsource_segment (delete ifo analyzable_dict)
           on_source kw)
  ∧ (∀ ifos c ifo,
       analyzable_ifos analyzable_dict on_source = Ok ifos →
       c ∈ test_combos ifos → ifo ∈ c →
       has_containing analyzable_dict on_source ifo)
  ∧ (∀ seg combo ifo,
       multi_ifo_compute_offsource_segment analyzable_dict on_source kw
       = Ok (seg, combo) →
       ifo ∈ combo →
       has_containing analyzable_dict on_source ifo).
Proof.
  assert (∀ ifos c ifo,
            analyzable_ifos analyzable_dict on_source = Ok ifos →
            c ∈ test_combos ifos → ifo ∈ c →
            has_containing analyzable_dict on_source ifo) as Htried.
  { intros ifos c ifo Hifos [Hsub _]%elem_of_test_combos Hifo.
    destruct (analyzable_ifos_Ok _ _ _ Hifos) as (_ & Hin & _).
    apply sublist_subseteq in Hsub.
    destruct (proj1 (Hin ifo) (Hsub _ Hifo)) as [l Hl].
    apply new_analyzable_dict_Some in Hl as (seglist & s & Hd & Hs & _).
    apply first_containing_elem_of in Hs as [Hs Hc].
    by exists seglist, s. }
  split_and!.
  - intros ifo seglist Hd Hno. split; [by eapply new_analyzable_dict_None |].
    unfold multi_ifo_compute_offsource_segment, analyzable_ifos.
    by rewrite (new_analyzable_dict_delete _ _ _ _ Hd Hno).
  - done.
  - intros seg combo ifo H Hifo.
    unfold multi_ifo_compute_offsource_segment in H.
    destruct (analyzable_ifos analyzable_dict on_source) as [ifos|e] eqn:Hifos;
      simpl in H; [| done].
    apply first_offsource_Ok in H
      as [(_ & -> & _) | (seg' & pre & c & post & _ & Hsplit & _ & _ & ->)].
    + by apply elem_of_nil in Hifo.
    + apply (Htried ifos c ifo eq_refl).
      * rewrite Hsplit. apply elem_of_app. right. by left.
      * pose proof (sort_strings_sorted c) as [_ Hperm]. by rewrite <- Hperm.
Qed.

Lemma multi_ifo_first_success_witness :
  multi_ifo_compute_offsource_segment
    (list_to_map [("V1", [mkseg 0 1000]); ("H1", [mkseg 90 210]);
                  ("L1", [mkseg 0 1000])]%string)
    (mkseg 100 200) (mk_kwargs 0 (Some 2) None true)
  = Ok (Some (mkseg 0 300), sort_strings ["L1"; "V1"]%string).
Proof.
  destruct (multi_ifo_first_success
              (list_to_map [("V1", [mkseg 0 1000]); ("H1", [mkseg 90 210]);
                            ("L1", [mkseg 0 1000])]%string)
              (mkseg 100 200) (mk_kwargs 0 (Some 2) None true)
              ["H1"; "L1"; "V1"]%string)
    as (_ & _ & _ & _ & _ & Hfirst & _).
  - vm_compute. reflexivity.
  - apply (Hfirst [["H1"; "L1"; "V1"]; ["H1"; "L1"]; ["H1"; "V1"]]%string
                  ["L1"; "V1"]%string []).
    + reflexivity.
    + repeat constructor.
    + vm_compute. reflexivity.
Defined.

Lemma multi_ifo_drops_uncovered_witness :
  new_analyzable_dict
    (list_to_map [("V1", [mkseg 0 1000]); ("K1", [mkseg 0 50]);
                  ("L1", [mkseg 0 1000])]%string)
    (mkseg 100 200) !! "K1"%string = None.
Proof.
  destruct (multi_ifo_drops_uncovered
              (list_to_map [("V1", [mkseg 0 1000]); ("K1", [mkseg 0 50]);
                            ("L1", [mkseg 0 1000])]%string)
              (mkseg 100 200) default_kwargs) as (Hdrop & _ & _).
  apply (Hdrop "K1"%string [mkseg 0 50]).
  - vm_compute. reflexivity.
  - repeat constructor.
Defined.

(** ** Checks on concrete inputs *)

Example masked_0_1000 :
  compute_masked_segments [mkseg 0 1000] (mkseg 400 500) None None
  = Ok ([mkseg 0 400; mkseg 500 1000], [mkseg 400 500]).
Proof. vm_compute. reflexivity. Qed.

Example masked_vetoed :
  compute_masked_segments [mkseg 500 1000; mkseg 0 500] (mkseg 400 500)
    (Some [mkseg 450 600]) None
  = Ok ([mkseg 0 400; mkseg 450 1000], [mkseg 400 600]).
Proof. vm_compute. reflexivity. Qed.

Example choices_abc : choices ["a"; "b"; "c"]%string 2
  = [["a"; "b"]; ["a"; "c"]; ["b"; "c"]]%string.
Proof. reflexivity. Qed.

Example combos_3 : test_combos ["H1"; "L1"; "V1"]%string
  = [["H1"; "L1"; "V1"]; ["H1"; "L1"]; ["H1"; "V1"]; ["L1"; "V1"]]%string.
Proof. reflexivity. Qed.

Example combos_1 : test_combos ["H1"]%string = [].
Proof. reflexivity. Qed.

(** A detector outside the ranking among two or more kept detectors makes
    the sort, and with it the call, fail; left alone or dropped it does
    not. *)
Example multi_ifo_unranked :
  multi_ifo_compute_offsource_segment
    (list_to_map [("K1", [mkseg 0 1000]); ("H1", [mkseg 0 1000])]%string)
    (mkseg 100 200) default_kwargs = Raise KeyError
  ∧ multi_ifo_compute_offsource_segment
      (list_to_map [("K1", [mkseg 0 1000])]%string)
      (mkseg 100 200) default_kwargs = Ok (None, []).
Proof. vm_compute. done. Qed.

Example multi_ifo_3 :
  multi_ifo_compute_offsource_segment
    (list_to_map [("V1", [mkseg 0 1000]); ("H1", [mkseg 150 160; mkseg 0 400]);
                  ("L1", [mkseg 0 500]); ("K1", [mkseg 0 50])]%string)
    (mkseg 100 200) default_kwargs
  = Ok (Some (mkseg 0 300), ["H1"; "L1"; "V1"]%string).
Proof. vm_compute. reflexivity. Qed.

Example trials_0_300 :
  get_exttrig_trials spec_LinearBins spec_bins_spanned
    [mkseg 100 200] [mkseg 0 300] [[mkseg 250 260]; []]
  = Ok (mk_spec_bins 0 300 3, [false; false; true], [1%nat]).
Proof. vm_compute. reflexivity. Qed.

Example coalesce_merges :
  coalesce [mkseg 5 10; mkseg 0 5; mkseg 20 30; mkseg 25 27; mkseg 40 40]
  = [mkseg 0 10; mkseg 20 30].
Proof. vm_compute. reflexivity. Qed.

Example seglist_sub_splits :
  seglist_sub [mkseg 0 10; mkseg 20 30; mkseg 40 50] [mkseg 5 25; mkseg 42 45]
  = [mkseg 0 5; mkseg 25 30; mkseg 40 42; mkseg 45 50].
Proof. vm_compute. reflexivity. Qed.

Example seglist_and_overlaps :
  seglist_and [mkseg 0 10; mkseg 20 30] [mkseg 5 25]
  = [mkseg 5 10; mkseg 20 25].
Proof. vm_compute. reflexivity. Qed.

Example contract_swaps : contract (mkseg 0 10) 8 = mkseg 2 8.
Proof. reflexivity. Qed.

Example sort_strings_ifos :
  sort_strings ["V1"; "H1"; "L1"]%string = ["H1"; "L1"; "V1"]%string.
Proof. vm_compute. reflexivity. Qed.

Example analyzable_ifos_ranked :
  analyzable_ifos
    (list_to_map [("V1", [mkseg 0 1000]); ("G1", [mkseg 0 1000]);
                  ("H2", [mkseg 0 1000]); ("L1", [mkseg 0 1000]);
                  ("H1", [mkseg 0 1000])]%string) (mkseg 100 200)
  = Ok ["H1"; "L1"; "H2"; "V1"; "G1"]%string.
Proof. vm_compute. reflexivity. Qed.

(** * Further properties *)

(** ** The comparison of detectors *)

(** [sensitivity_cmp] raises [KeyError], and nothing else, when one of
    the two detectors is outside the ranking; on ranked detectors it is a
    strict total order: equal only on the same detector, antisymmetric
    and transitive. *)
Theorem sensitivity_cmp_order ifo1 ifo2 :
  (sensitivity_cmp ifo1 ifo2 = Raise KeyError
   ↔ sensitivity_dict !! ifo1 = None ∨ sensitivity_dict !! ifo2 = None)
  ∧ (∀ e, sensitivity_cmp ifo1 ifo2 = Raise e → e = KeyError)
  ∧ (sensitivity_cmp ifo1 ifo2 = Ok Eq
     ↔ ifo1 = ifo2 ∧ is_Some (sensitivity_dict !! ifo1))
  ∧ (sensitivity_cmp ifo1 ifo2 = Ok Lt ↔ sensitivity_cmp ifo2 ifo1 = Ok Gt)
  ∧ (∀ ifo3, sensitivity_cmp ifo1 ifo2 = Ok Lt →
             sensitivity_cmp ifo2 ifo3 = Ok Lt →
             sensitivity_cmp ifo1 ifo3 = Ok Lt).
Proof.
  unfold sensitivity_cmp, dict_getitem.
  destruct (sensitivity_dict !! ifo1) as [r1|] eqn:H1;
    destruct (sensitivity_dict !! ifo2) as [r2|] eqn:H2; simpl.
  - split_and!.
    + split; [done | by intros [|]].
    + done.
    + split.
      * intros [= Heq%Z.compare_eq]. subst r2.
        split; [by eapply sensitivity_dict_inj | eauto].
      * intros [-> _]. simplify_eq. by rewrite Z.compare_refl.
    + rewrite (Z.compare_antisym r1 r2).
      destruct (r1 ?= r2); simpl; split; intros [=]; done.
    + intros ifo3. destruct (sensitivity_dict !! ifo3) as [r3|]; simpl; [| done].
      intros [= H12] [= H23]. change (r1 < r2) in H12. change (r2 < r3) in H23.
      assert (r1 < r3) as -> by lia. done.
  - split_and!; try done; try (by intros e [= <-]);
      try (split; [by eauto | done]);
      try (split; [done | intros [-> [? ?]]; congruence]).
  - split_and!; try done; try (by intros e [= <-]);
      try (split; [by eauto | done]);
      try (split; [done | intros [-> [? ?]]; congruence]).
  - split_and!; try done; try (by intros e [= <-]);
      try (split; [by eauto | done]);
      try (split; [done | intros [-> [? ?]]; congruence]).
Qed.

(** ** More on the off-source segment *)

Lemma truncate_trials_le_natural max_trials nplus0 nminus0 :
  (truncate_trials max_trials nplus0 nminus0).1 ≤ nplus0
  ∧ (truncate_trials max_trials nplus0 nminus0).2 ≤ nminus0.
Proof.
  unfold truncate_trials. destruct max_trials as [m|]; [| simpl; lia].
  repeat case_bool_decide; simpl; lia.
Qed.

(** What a returned segment is made of, under the sign conditions that
    keep the constructor from swapping its bounds. *)
Lemma offsource_result_shape analyzable on_source padding_time min_trials
    max_trials symmetric r :
  wf_segment on_source →
  0 ≤ padding_time →
  (∀ m, max_trials = Some m → 0 ≤ m) →
  compute_offsource_segment analyzable on_source padding_time min_trials
    max_trials symmetric = Ok (Some r) →
  ∃ s nplus0 nminus0 nplus nminus,
    first_containing analyzable on_source s
    ∧ seg_contains (contract s padding_time) on_source = true
    ∧ natural_trials (contract s padding_time) on_source = Ok (nplus0, nminus0)
    ∧ (nplus, nminus)
      = symmetrize symmetric (truncate_trials max_trials nplus0 nminus0)
    ∧ 0 ≤ nplus ≤ nplus0 ∧ 0 ≤ nminus ≤ nminus0
    ∧ 0 < seg_abs on_source
    ∧ (∀ m, min_trials = Some m → m ≤ nplus + nminus)
    ∧ r = mkseg (seg_lo on_source - nminus * seg_abs on_source - padding_time)
                (seg_hi on_source + nplus * seg_abs on_source + padding_time).
Proof.
  intros Hwf Hpad Hmax H.
  apply compute_offsource_segment_Some in H
    as (super_seg & nplus & nminus & Hs & Hn & Hmin & ->).
  apply find_super_seg_Some in Hs as (s & Hfirst & -> & Hc).
  destruct (final_trials_Ok _ _ _ _ _ _ Hn) as (nplus0 & nminus0 & Hnat & Heq).
  destruct (natural_trials_nonneg _ _ _ _ Hwf Hc Hnat) as (Hq & Hp0 & Hm0 & _).
  destruct (truncate_trials_nonneg max_trials nplus0 nminus0 Hmax Hp0 Hm0)
    as [Ht1 Ht2].
  destruct (truncate_trials_le_natural max_trials nplus0 nminus0) as [Hl1 Hl2].
  assert (0 ≤ nplus ≤ nplus0 ∧ 0 ≤ nminus ≤ nminus0) as [Hp Hm].
  { destruct (truncate_trials max_trials nplus0 nminus0) as [t1 t2].
    unfold symmetrize in Heq. simpl in *.
    destruct symmetric; injection Heq as -> ->; lia. }
  exists s, nplus0, nminus0, nplus, nminus.
  unfold offsource_of. unfold wf_segment in Hwf.
  rewrite new_segment_le by nia. done.
Qed.

Lemma find_super_seg_first analyzable on_source padding_time s :
  first_containing analyzable on_source s →
  find_super_seg analyzable on_source padding_time
  = if seg_contains (contract s padding_time) on_source
    then Ok (Some (contract s padding_time)) else Ok None.
Proof.
  intros Hfirst.
  destruct (find_super_seg_cases analyzable on_source padding_time)
    as [[Hno _] | [(s' & Hfirst' & Hc & ->) | (s' & Hfirst' & Hc & ->)]].
  - by apply first_containing_not_no in Hfirst.
  - rewrite (first_containing_unique _ _ _ _ Hfirst' Hfirst) in Hc. by rewrite Hc.
  - rewrite (first_containing_unique _ _ _ _ Hfirst' Hfirst) in *. by rewrite Hc.
Qed.

(** A returned segment holds at least [min_trials] trials: its length is
    at least [min_trials + 1] on-source lengths and twice the padding. *)
Theorem offsource_min_trials analyzable on_source padding_time m max_trials
    symmetric r :
  wf_segment on_source →
  0 ≤ padding_time →
  (∀ m', max_trials = Some m' → 0 ≤ m') →
  compute_offsource_segment analyzable on_source padding_time (Some m)
    max_trials symmetric = Ok (Some r) →
  (m + 1) * seg_abs on_source + 2 * padding_time ≤ seg_abs r.
Proof.
  intros Hwf Hpad Hmax H.
  destruct (offsource_result_shape _ _ _ _ _ _ _ Hwf Hpad Hmax H)
    as (s & np0 & nm0 & np & nm & _ & _ & _ & _ & Hp & Hm & Hq & Hmin & ->).
  specialize (Hmin m eq_refl). unfold seg_abs in *. simpl. nia.
Qed.

Lemma offsource_min_trials_witness :
  (1 + 1) * seg_abs (mkseg 100 200) + 2 * 0 ≤ seg_abs (mkseg 0 300).
Proof.
  apply (offsource_min_trials [mkseg 0 1000] (mkseg 100 200) 0 1 None true).
  - unfold wf_segment. simpl. lia.
  - lia.
  - intros m' [=].
  - vm_compute. reflexivity.
Defined.

(** A returned segment, less the padding at either end, lies within the
    contracted analyzable segment; and it lies within the analyzable
    segment itself when that segment is at least two paddings long. *)
Theorem offsource_within_analyzable analyzable on_source padding_time
    min_trials max_trials symmetric r :
  wf_segment on_source →
  0 ≤ padding_time →
  (∀ m, max_trials = Some m → 0 ≤ m) →
  compute_offsource_segment analyzable on_source padding_time min_trials
    max_trials symmetric = Ok (Some r) →
  ∃ s, first_containing analyzable on_source s
       ∧ seg_contains (contract s padding_time)
           (mkseg (seg_lo r + padding_time) (seg_hi r - padding_time)) = true
       ∧ (seg_lo s + padding_time ≤ seg_hi s - padding_time →
          seg_contains s r = true).
Proof.
  intros Hwf Hpad Hmax H.
  destruct (offsource_result_shape _ _ _ _ _ _ _ Hwf Hpad Hmax H)
    as (s & np0 & nm0 & np & nm & Hfirst & Hc & Hnat & _ & Hp & Hm & Hq & _ & ->).
  destruct (natural_trials_nonneg _ _ _ _ Hwf Hc Hnat) as (_ & _ & _ & Hhi & Hlo).
  exists s. split; [done |].
  assert (seg_lo (contract s padding_time) ≤ seg_lo on_source - nm * seg_abs on_source
          ∧ seg_hi on_source + np * seg_abs on_source ≤ seg_hi (contract s padding_time))
    as [Hl Hh] by nia.
  split.
  - apply seg_contains_true. simpl. lia.
  - intros Hlen. unfold contract in Hl, Hh. rewrite new_segment_le in Hl, Hh by done.
    apply seg_contains_true. simpl in *. lia.
Qed.

Lemma offsource_within_analyzable_witness :
  seg_contains (mkseg 0 1000) (mkseg 90 210) = true.
Proof.
  destruct (offsource_within_analyzable [mkseg 0 1000] (mkseg 100 200) 10
              None None true (mkseg 90 210)) as (s & Hfirst & _ & Hin).
  - unfold wf_segment. simpl. lia.
  - lia.
  - intros m [=].
  - vm_compute. reflexivity.
  - assert (s = mkseg 0 1000) as ->.
    { apply (first_containing_unique [mkseg 0 1000] (mkseg 100 200)); [done |].
      exists [], []. split_and!; [done | constructor | reflexivity]. }
    apply Hin. simpl. lia.
Defined.

(** A padding of more than half the analyzable segment makes [contract]
    swap the bounds, and the segment returned sticks out of the
    analyzable segment. *)
Example offsource_padding_over_half :
  compute_offsource_segment [mkseg 0 10] (mkseg 3 5) 8 None None true
  = Ok (Some (mkseg (-5) 13))
  ∧ seg_contains (mkseg 0 10) (mkseg (-5) 13) = false.
Proof. vm_compute. done. Qed.

(** Without a cap and without the symmetric mode the segment returned is
    maximal: one more on-source length at either end would leave the
    contracted analyzable segment. *)
Theorem offsource_maximal analyzable on_source padding_time min_trials r :
  wf_segment on_source →
  0 ≤ padding_time →
  compute_offsource_segment analyzable on_source padding_time min_trials
    None false = Ok (Some r) →
  ∃ s, first_containing analyzable on_source s
       ∧ seg_hi (contract s padding_time)
         < seg_hi r - padding_time + seg_abs on_source
       ∧ seg_lo r + padding_time - seg_abs on_source
         < seg_lo (contract s padding_time).
Proof.
  intros Hwf Hpad H.
  assert (∀ m : Z, @None Z = Some m → 0 ≤ m) as Hmax by done.
  destruct (offsource_result_shape _ _ _ _ _ _ _ Hwf Hpad Hmax H)
    as (s & np0 & nm0 & np & nm & Hfirst & Hc & Hnat & Heq & _ & _ & Hq & _ & ->).
  simpl in Heq. injection Heq as -> ->.
  rewrite natural_trials_Ok in Hnat by lia. injection Hnat as <- <-.
  exists s. split; [done |]. simpl.
  pose proof (Z.mul_succ_div_gt
                (seg_hi (contract s padding_time) - seg_hi on_source)
                (seg_abs on_source) Hq).
  pose proof (Z.mul_succ_div_gt
                (seg_lo on_source - seg_lo (contract s padding_time))
                (seg_abs on_source) Hq).
  nia.
Qed.

Lemma offsource_maximal_witness :
  seg_hi (contract (mkseg 0 1000) 0) < seg_hi (mkseg 0 1000) - 0 + seg_abs (mkseg 100 200)
  ∧ seg_lo (mkseg 0 1000) + 0 - seg_abs (mkseg 100 200)
    < seg_lo (contract (mkseg 0 1000) 0).
Proof.
  destruct (offsource_maximal [mkseg 0 1000] (mkseg 100 200) 0 None (mkseg 0 1000))
    as (s & Hfirst & Hmax).
  - unfold wf_segment. simpl. lia.
  - lia.
  - vm_compute. reflexivity.
  - assert (s = mkseg 0 1000) as ->.
    { apply (first_containing_unique [mkseg 0 1000] (mkseg 100 200)); [done |].
      exists [], []. split_and!; [done | constructor | reflexivity]. }
    exact Hmax.
Defined.

(** Only the first analyzable segment around the on-source segment
    counts: the result is that of the call on that segment alone, whatever
    comes before or after it in the list. *)
Theorem offsource_first_containing_only analyzable on_source padding_time
    min_trials max_trials symmetric s :
  first_containing analyzable on_source s →
  compute_offsource_segment analyzable on_source padding_time min_trials
    max_trials symmetric
  = compute_offsource_segment [s] on_source padding_time min_trials
      max_trials symmetric.
Proof.
  intros Hfirst. rewrite !compute_offsource_segment_stages.
  unfold offsource_by_stages.
  rewrite (find_super_seg_first _ _ _ s Hfirst).
  rewrite (find_super_seg_first [s] _ _ s); [done |].
  destruct Hfirst as (pre & post & _ & _ & Hc).
  exists [], []. split_and!; [done | constructor | done].
Qed.

Lemma offsource_first_containing_only_witness :
  compute_offsource_segment [mkseg 0 50; mkseg 90 210; mkseg 0 1000]
    (mkseg 100 200) 0 None None true
  = compute_offsource_segment [mkseg 90 210] (mkseg 100 200) 0 None None true.
Proof.
  apply offsource_first_containing_only.
  exists [mkseg 0 50], [mkseg 0 1000].
  split_and!; [done | by repeat constructor | reflexivity].
Defined.

(** The one exception the function raises is [ZeroDivisionError], and it
    raises it exactly when the on-source segment has length zero and the
    first analyzable segment around it still contains it once
    contracted. *)
Theorem offsource_raises_zero_division analyzable on_source padding_time
    min_trials max_trials symmetric e :
  compute_offsource_segment analyzable on_source padding_time min_trials
    max_trials symmetric = Raise e
  ↔ e = ZeroDivisionError
    ∧ seg_abs on_source = 0
    ∧ ∃ s, first_containing analyzable on_source s
           ∧ seg_contains (contract s padding_time) on_source = true.
Proof.
  rewrite compute_offsource_segment_stages. unfold offsource_by_stages.
  destruct (find_super_seg_cases analyzable on_source padding_time)
    as [[Hno ->] | [(s & Hfirst & Hc & ->) | (s & Hfirst & Hc & ->)]]; simpl.
  - split; [done |]. intros (_ & _ & s & Hfirst & _).
    by apply first_containing_not_no in Hfirst.
  - split; [done |]. intros (_ & _ & s' & Hfirst' & Hc').
    rewrite (first_containing_unique _ _ _ _ Hfirst' Hfirst) in Hc'. congruence.
  - destruct (decide (seg_abs on_source = 0)) as [Hz | Hz].
    + unfold final_trials. rewrite natural_trials_zero by done. simpl.
      split; [intros [= <-]; eauto | by intros (-> & _)].
    + destruct (final_trials_total (contract s padding_time) on_source
                  max_trials symmetric Hz) as (np & nm & ->). simpl.
      split; [| by intros (_ & ? & _)].
      destruct min_trials; [case_bool_decide |]; done.
Qed.

(** A cap that the contracted analyzable segment cannot exceed has no
    effect: when that segment is no longer than [max_trials + 1] on-source
    lengths, the call returns what it returns without a cap. *)
Theorem offsource_cap_not_reached analyzable on_source padding_time
    min_trials m symmetric s :
  wf_segment on_source →
  first_containing analyzable on_source s →
  seg_abs (contract s padding_time) ≤ (m + 1) * seg_abs on_source →
  compute_offsource_segment analyzable on_source padding_time min_trials
    (Some m) symmetric
  = compute_offsource_segment analyzable on_source padding_time min_trials
      None symmetric.
Proof.
  intros Hwf Hfirst Hlen. rewrite !compute_offsource_segment_stages.
  unfold offsource_by_stages. rewrite (find_super_seg_first _ _ _ s Hfirst).
  destruct (seg_contains (contract s padding_time) on_source) eqn:Hc; [| done].
  simpl. unfold final_trials.
  destruct (natural_trials (contract s padding_time) on_source)
    as [[np0 nm0]|e] eqn:Hnat; [| done]. simpl.
  destruct (natural_trials_nonneg _ _ _ _ Hwf Hc Hnat) as (Hq & _ & _ & Hhi & Hlo).
  rewrite (bool_decide_eq_false_2 (np0 + nm0 > m)); [done |].
  unfold seg_abs in *. nia.
Qed.

Lemma offsource_cap_not_reached_witness :
  compute_offsource_segment [mkseg 0 1000] (mkseg 100 200) 0 None (Some 9) false
  = compute_offsource_segment [mkseg 0 1000] (mkseg 100 200) 0 None None false.
Proof.
  apply (offsource_cap_not_reached _ _ _ _ _ _ (mkseg 0 1000)).
  - unfold wf_segment. simpl. lia.
  - exists [], []. split_and!; [done | constructor | reflexivity].
  - vm_compute. discriminate.
Defined.

(** The symmetric mode only takes away: when it returns a segment, the
    call without it returns one too, and that one contains the symmetric
    one. *)
Theorem offsource_symmetric_within analyzable on_source padding_time
    min_trials max_trials r :
  wf_segment on_source →
  0 ≤ padding_time →
  (∀ m, max_trials = Some m → 0 ≤ m) →
  compute_offsource_segment analyzable on_source padding_time min_trials
    max_trials true = Ok (Some r) →
  ∃ r', compute_offsource_segment analyzable on_source padding_time
          min_trials max_trials false = Ok (Some r')
        ∧ seg_contains r' r = true.
Proof.
  intros Hwf Hpad Hmax H.
  destruct (offsource_result_shape _ _ _ _ _ _ _ Hwf Hpad Hmax H)
    as (s & np0 & nm0 & np & nm & Hfirst & Hc & Hnat & Heq & _ & _ & Hq & Hmin & ->).
  destruct (natural_trials_nonneg _ _ _ _ Hwf Hc Hnat) as (_ & Hp0 & Hm0 & _).
  destruct (truncate_trials_nonneg max_trials np0 nm0 Hmax Hp0 Hm0) as [Ht1 Ht2].
  destruct (truncate_trials max_trials np0 nm0) as [t1 t2] eqn:Ht.
  simpl in Heq, Ht1, Ht2. injection Heq as -> ->.
  assert (find_super_seg analyzable on_source padding_time
          = Ok (Some (contract s padding_time))) as Hs.
  { rewrite (find_super_seg_first _ _ _ s Hfirst). by rewrite Hc. }
  assert (final_trials (contract s padding_time) on_source max_trials false
          = Ok (t1, t2)) as Hn.
  { unfold final_trials. rewrite Hnat. simpl. by rewrite Ht. }
  rewrite (compute_offsource_segment_eq _ _ _ _ _ _ _ _ _ Hs Hn).
  unfold offsource_of. unfold wf_segment in Hwf.
  rewrite new_segment_le by nia.
  eexists. split.
  - destruct min_trials as [m|]; [| done].
    specialize (Hmin m eq_refl). rewrite bool_decide_eq_false_2; [done | lia].
  - apply seg_contains_true. simpl. nia.
Qed.

Lemma offsource_symmetric_within_witness :
  ∃ r', compute_offsource_segment [mkseg 0 1000] (mkseg 100 200) 0 None None false
        = Ok (Some r')
        ∧ seg_contains r' (mkseg 0 300) = true.
Proof.
  apply offsource_symmetric_within.
  - unfold wf_segment. simpl. lia.
  - lia.
  - intros m [=].
  - vm_compute. reflexivity.
Defined.

(** ** More on several detectors *)

Lemma has_containing_kept analyzable_dict on_source ifo :
  has_containing analyzable_dict on_source ifo
  ↔ is_Some (new_analyzable_dict analyzable_dict on_source !! ifo).
Proof.
  split.
  - intros (seglist & s & Hd & Hs & Hc).
    destruct (find_getitem seglist on_source) as [(s' & Hfirst & _) | [Hno _]].
    + exists [s']. apply new_analyzable_dict_Some. eauto.
    + unfold no_containing in Hno. rewrite Forall_forall in Hno.
      specialize (Hno s Hs). congruence.
  - intros [l (seglist & s & Hd & Hfirst & _)%new_analyzable_dict_Some].
    apply first_containing_elem_of in Hfirst as [Hs Hc]. by exists seglist, s.
Qed.

Lemma kept_keys analyzable_dict on_source :
  NoDup (map_to_list (new_analyzable_dict analyzable_dict on_source)).*1
  ∧ ∀ ifo, ifo ∈ (map_to_list (new_analyzable_dict analyzable_dict on_source)).*1
           ↔ has_containing analyzable_dict on_source ifo.
Proof.
  split; [apply NoDup_fst_map_to_list |].
  intros ifo. rewrite has_containing_kept, list_elem_of_fmap. split.
  - intros ([k l] & -> & Hkl%elem_of_map_to_list). by exists l.
  - intros [l Hl]. exists (ifo, l). split; [done |]. by apply elem_of_map_to_list.
Qed.

Lemma sort_insert_Raise x l e :
  sort_insert sensitivity_cmp x l = Raise e → e = KeyError.
Proof.
  induction l as [|y l IH]; simpl; [done |].
  destruct (sensitivity_cmp x y) as [c|e'] eqn:Hc; simpl.
  - destruct c; try done.
    destruct (sort_insert sensitivity_cmp x l); simpl; [done |].
    intros [= <-]. by apply IH.
  - intros [= <-]. unfold sensitivity_cmp, dict_getitem in Hc.
    destruct (sensitivity_dict !! x); simpl in Hc; [| by injection Hc].
    destruct (sensitivity_dict !! y); simpl in Hc; [done | by injection Hc].
Qed.

Lemma sort_cmp_Raise l e :
  sort_cmp sensitivity_cmp l = Raise e → e = KeyError.
Proof.
  induction l as [|x l IH]; simpl; [done |].
  destruct (sort_cmp sensitivity_cmp l) as [s|e']; simpl.
  - apply sort_insert_Raise.
  - intros [= <-]. by apply IH.
Qed.

Lemma sort_insert_ranked x l :
  is_Some (sensitivity_dict !! x) →
  Forall (fun y => is_Some (sensitivity_dict !! y)) l →
  ∃ l', sort_insert sensitivity_cmp x l = Ok l'.
Proof.
  intros [rx Hx]. induction 1 as [|y l [ry Hy] Hl IH]; [by eexists |].
  destruct IH as [l' Hl'].
  assert (sensitivity_cmp x y = Ok (rx ?= ry)) as Hc.
  { unfold sensitivity_cmp, dict_getitem. by rewrite Hx, Hy. }
  cbn [sort_insert]. rewrite Hc. cbn [mbind result_bind].
  destruct (rx ?= ry); [by eexists | by eexists |].
  rewrite Hl'. by eexists.
Qed.

Lemma sort_insert_unranked x y l :
  sensitivity_dict !! x = None ∨ sensitivity_dict !! y = None →
  sort_insert sensitivity_cmp x (y :: l) = Raise KeyError.
Proof.
  intros H. simpl. unfold sensitivity_cmp, dict_getitem.
  destruct (sensitivity_dict !! x); simpl; [| done].
  destruct (sensitivity_dict !! y); simpl; [| done].
  by destruct H.
Qed.

(** The sort by sensitivity fails exactly on a list of two or more
    detectors with one outside the ranking. *)
Lemma sort_cmp_Raise_iff l e :
  sort_cmp sensitivity_cmp l = Raise e
  ↔ e = KeyError ∧ (2 ≤ length l)%nat
    ∧ Exists (fun x => sensitivity_dict !! x = None) l.
Proof.
  split.
  - intros H. split; [by eapply sort_cmp_Raise |].
    induction l as [|x l IH]; simpl in *; [done |].
    destruct (sort_cmp sensitivity_cmp l) as [s|e'] eqn:Hs; simpl in H.
    + pose proof (sort_cmp_Permutation _ _ _ Hs) as Hperm.
      destruct s as [|y s]; [done |].
      split; [apply Permutation_length in Hperm; simpl in *; lia |].
      destruct (sensitivity_dict !! x) as [rx|] eqn:Hx; [| by left].
      right. rewrite <- Hperm.
      destruct (decide (Forall (fun y => is_Some (sensitivity_dict !! y)) (y :: s)))
        as [Hall | Hnall].
      { destruct (sort_insert_ranked x (y :: s)) as [l' Hl']; [by eexists | done |].
        congruence. }
      apply not_Forall_Exists in Hnall; [| apply _].
      eapply Exists_impl; [exact Hnall |]. simpl. intros z Hz.
      by apply eq_None_not_Some.
    + destruct (IH H) as [Hlen Hex]. split; [lia | by right].
  - intros (-> & Hlen & Hex).
    induction l as [|x l IH]; simpl in *; [lia |].
    destruct (sort_cmp sensitivity_cmp l) as [s|e'] eqn:Hs; simpl.
    + pose proof (sort_cmp_Permutation _ _ _ Hs) as Hperm.
      destruct s as [|y s]; [apply Permutation_length in Hperm; simpl in *; lia |].
      apply Exists_cons in Hex as [Hx | Hex];
        [by apply sort_insert_unranked; left |].
      destruct (decide (2 ≤ length l)%nat) as [Hl | Hl].
      { specialize (IH Hl Hex). congruence. }
      destruct l as [|z [|z' l]]; simpl in *; [lia | | lia].
      apply Permutation_singleton_r in Hperm. injection Hperm as -> ->.
      apply Exists_cons in Hex as [Hz | Hex]; [| by apply Exists_nil in Hex].
      apply sort_insert_unranked. by right.
    + f_equal. by eapply sort_cmp_Raise.
Qed.

Lemma first_offsource_Raise d on_source kw combos e :
  first_offsource d on_source kw combos = Raise e →
  ∃ c, c ∈ combos ∧ try_combo d on_source kw c = Raise e.
Proof.
  induction combos as [|c combos IH]; simpl; [done |].
  destruct (try_combo d on_source kw c) as [[seg|]|e'] eqn:Hc; simpl; [done | |].
  - intros (c' & Hc' & He)%IH. exists c'. split; [by right | done].
  - intros [= <-]. exists c. split; [by left | done].
Qed.

Lemma compute_offsource_segment_Raise analyzable on_source padding_time
    min_trials max_trials symmetric e :
  compute_offsource_segment analyzable on_source padding_time min_trials
    max_trials symmetric = Raise e →
  e = ZeroDivisionError ∧ seg_abs on_source = 0.
Proof.
  rewrite compute_offsource_segment_stages. unfold offsource_by_stages.
  destruct (find_super_seg_cases analyzable on_source padding_time)
    as [[_ ->] | [(s & _ & _ & ->) | (s & _ & _ & ->)]]; simpl; [done | done |].
  destruct (decide (seg_abs on_source = 0)) as [Hz | Hz].
  - unfold final_trials. rewrite natural_trials_zero by done. simpl.
    by intros [= <-].
  - destruct (final_trials_total (contract s padding_time) on_source
                max_trials symmetric Hz) as (np & nm & ->). simpl.
    destruct min_trials; [case_bool_decide |]; done.
Qed.

(** A combination of kept detectors is intersected without error. *)
Lemma intersection_kept analyzable_dict on_source c :
  NoDup c →
  (∀ ifo, ifo ∈ c → has_containing analyzable_dict on_source ifo) →
  ∃ segs,
    Forall2 (fun ifo s =>
               ∃ seglist, analyzable_dict !! ifo = Some seglist
                          ∧ first_containing seglist on_source s) c segs
    ∧ intersection (new_analyzable_dict analyzable_dict on_source) c
      = Ok (common_time segs).
Proof.
  intros Hnd Hc.
  destruct (Forall2_exists
              (fun ifo s => ∃ seglist, analyzable_dict !! ifo = Some seglist
                                       ∧ first_containing seglist on_source s) c)
    as [segs Hsegs].
  { intros ifo [l Hl]%Hc%has_containing_kept.
    apply new_analyzable_dict_Some in Hl as (seglist & s & ? & ? & _). eauto. }
  exists segs. split; [done |].
  apply intersection_singletons; [done |].
  eapply Forall2_impl; [exact Hsegs |]. simpl.
  intros ifo s (seglist & Hd & Hs). apply new_analyzable_dict_Some. eauto.
Qed.

(** With at most one detector that has a segment around the on-source
    segment no combination is tried: the outcome is [None] and the empty
    list, also for a detector outside the ranking. *)
Theorem multi_ifo_single_detector analyzable_dict on_source kw :
  (∀ ifo1 ifo2, has_containing analyzable_dict on_source ifo1 →
                has_containing analyzable_dict on_source ifo2 → ifo1 = ifo2) →
  multi_ifo_compute_offsource_segment analyzable_dict on_source kw
  = Ok (None, []).
Proof.
  intros Hone. unfold multi_ifo_compute_offsource_segment, analyzable_ifos.
  destruct (kept_keys analyzable_dict on_source) as [Hnd Hin].
  destruct ((map_to_list (new_analyzable_dict analyzable_dict on_source)).*1)
    as [|a [|b l]]; [done | done |].
  exfalso. apply NoDup_cons in Hnd as [Hab _]. apply Hab.
  rewrite (Hone a b); [by left | |]; apply Hin; [by left | by right; left].
Qed.

Lemma multi_ifo_single_detector_witness :
  multi_ifo_compute_offsource_segment
    (list_to_map [("K1", [mkseg 0 1000]); ("H1", [mkseg 0 50])]%string)
    (mkseg 100 200) default_kwargs
  = Ok (None, []).
Proof.
  apply multi_ifo_single_detector.
  assert (∀ ifo,
            has_containing
              (list_to_map [("K1", [mkseg 0 1000]); ("H1", [mkseg 0 50])]%string)
              (mkseg 100 200) ifo → ifo = "K1"%string) as Hk.
  { intros ifo (seglist & s & Hd & Hs & Hc).
    simpl in Hd. rewrite lookup_insert in Hd. case_decide; [done |].
    rewrite lookup_insert in Hd. case_decide; [| by rewrite lookup_empty in Hd].
    injection Hd as <-. apply list_elem_of_singleton in Hs as ->. done. }
  intros ifo1 ifo2 H1 H2. by rewrite (Hk _ H1), (Hk _ H2).
Defined.

(** The call raises [KeyError] exactly when a detector outside the
    ranking has a segment around the on-source segment and another
    detector has one too; the only other exception is the
    [ZeroDivisionError] of an on-source segment of length zero. *)
Theorem multi_ifo_exceptions analyzable_dict on_source kw :
  (multi_ifo_compute_offsource_segment analyzable_dict on_source kw
   = Raise KeyError
   ↔ ∃ ifo1 ifo2, ifo1 ≠ ifo2
       ∧ has_containing analyzable_dict on_source ifo1
       ∧ has_containing analyzable_dict on_source ifo2
       ∧ sensitivity_dict !! ifo1 = None)
  ∧ (∀ e, multi_ifo_compute_offsource_segment analyzable_dict on_source kw
          = Raise e →
          e = KeyError ∨ (e = ZeroDivisionError ∧ seg_abs on_source = 0)).
Proof.
  destruct (kept_keys analyzable_dict on_source) as [Hnd Hin].
  assert (∀ e, multi_ifo_compute_offsource_segment analyzable_dict on_source kw
               = Raise e →
               (analyzable_ifos analyzable_dict on_source = Raise e ∧ e = KeyError)
               ∨ (e = ZeroDivisionError ∧ seg_abs on_source = 0)) as Hraise.
  { intros e H. unfold multi_ifo_compute_offsource_segment in H.
    destruct (analyzable_ifos analyzable_dict on_source) as [ifos|e'] eqn:Hifos;
      simpl in H.
    - right. apply first_offsource_Raise in H as (c & [Hsub _]%elem_of_test_combos & Hc).
      destruct (analyzable_ifos_Ok _ _ _ Hifos) as (Hnd' & Hin' & _).
      destruct (intersection_kept analyzable_dict on_source c)
        as (segs & _ & Hint).
      { by eapply sublist_NoDup. }
      { intros ifo Hifo. apply has_containing_kept, Hin'.
        by apply (sublist_subseteq _ _ Hsub). }
      unfold try_combo in Hc. rewrite Hint in Hc. simpl in Hc.
      by apply compute_offsource_segment_Raise in Hc.
    - injection H as <-. left. split; [done |].
      unfold analyzable_ifos in Hifos. by apply sort_cmp_Raise in Hifos. }
  split.
  - split.
    + intros [[Hsort _] | [[=] _]]%Hraise.
      unfold analyzable_ifos in Hsort.
      apply sort_cmp_Raise_iff in Hsort as (_ & Hlen & Hex).
      apply Exists_exists in Hex as (ifo1 & Hifo1 & Hun).
      destruct ((map_to_list (new_analyzable_dict analyzable_dict on_source)).*1)
        as [|a [|b l]] eqn:Hl; simpl in Hlen; [lia | lia |].
      apply NoDup_cons in Hnd as [Hab _].
      destruct (decide (ifo1 = a)) as [-> | Hne].
      * exists a, b. split_and!; [| | | done].
        -- intros ->. apply Hab. by left.
        -- by apply Hin.
        -- apply Hin. by right; left.
      * exists ifo1, a. split_and!; [done | by apply Hin | | done].
        apply Hin. by left.
    + intros (ifo1 & ifo2 & Hne & H1%Hin & H2%Hin & Hun).
      unfold multi_ifo_compute_offsource_segment, analyzable_ifos.
      assert (sort_cmp sensitivity_cmp
                (map_to_list (new_analyzable_dict analyzable_dict on_source)).*1
              = Raise KeyError) as ->; [| done].
      apply sort_cmp_Raise_iff. split_and!; [done | |].
      * destruct ((map_to_list (new_analyzable_dict analyzable_dict on_source)).*1)
          as [|a [|b l]]; simpl; [| | lia].
        -- by apply elem_of_nil in H1.
        -- apply list_elem_of_singleton in H1, H2. congruence.
      * apply Exists_exists. eauto.
  - intros e [[_ ->] | ?]%Hraise; [by left | by right].
Qed.

(** What comes back: [None] goes with the empty list and with nothing
    else; a segment goes with two detectors or more, each of them ranked
    and none of them twice, in the order of their names. *)
Theorem multi_ifo_result_shape analyzable_dict on_source kw o combo :
  multi_ifo_compute_offsource_segment analyzable_dict on_source kw
  = Ok (o, combo) →
  (o = None ↔ combo = [])
  ∧ (combo ≠ [] →
     (2 ≤ length combo)%nat ∧ NoDup combo ∧ Sorted string_le combo
     ∧ ∀ ifo, ifo ∈ combo → is_Some (sensitivity_dict !! ifo)).
Proof.
  intros H. unfold multi_ifo_compute_offsource_segment in H.
  destruct (analyzable_ifos analyzable_dict on_source) as [ifos|e] eqn:Hifos;
    simpl in H; [| done].
  apply first_offsource_Ok in H
    as [(-> & -> & _) | (seg & pre & c & post & -> & Hsplit & _ & _ & ->)].
  { split; done. }
  assert (c ∈ test_combos ifos) as [Hsub Hlen]%elem_of_test_combos.
  { rewrite Hsplit. apply elem_of_app. right. by left. }
  destruct (sort_strings_sorted c) as [Hsorted Hperm].
  destruct (analyzable_ifos_Ok _ _ _ Hifos) as (Hnd & _ & _).
  assert (sort_strings c ≠ []) as Hne.
  { intros Hnil. rewrite Hnil in Hperm. apply Permutation_nil_l in Hperm.
    subst c. simpl in Hlen. lia. }
  split; [split; done |]. intros _. split_and!.
  - by rewrite Hperm.
  - rewrite Hperm. by eapply sublist_NoDup.
  - done.
  - intros ifo Hifo. rewrite Hperm in Hifo.
    apply (sublist_subseteq _ _ Hsub) in Hifo.
    unfold analyzable_ifos in Hifos.
    pose proof (sort_cmp_Permutation _ _ _ Hifos) as Hp.
    destruct (sensitivity_dict !! ifo) as [r|] eqn:Hr; [by eexists |].
    exfalso.
    assert (sort_cmp sensitivity_cmp
              (map_to_list (new_analyzable_dict analyzable_dict on_source)).*1
            = Raise KeyError) as Hraise; [| congruence].
    apply sort_cmp_Raise_iff. split_and!; [done | |].
    + rewrite <- Hp. apply sublist_length in Hsub. lia.
    + apply Exists_exists. exists ifo. split; [by rewrite <- Hp | done].
Qed.

Lemma multi_ifo_result_shape_witness :
  (2 ≤ length (sort_strings ["L1"; "V1"]%string))%nat.
Proof.
  destruct (multi_ifo_result_shape
              (list_to_map [("V1", [mkseg 0 1000]); ("H1", [mkseg 90 210]);
                            ("L1", [mkseg 0 1000])]%string)
              (mkseg 100 200) (mk_kwargs 0 (Some 2) None true)
              (Some (mkseg 0 300)) (sort_strings ["L1"; "V1"]%string))
    as [_ Hshape].
  - vm_compute. reflexivity.
  - destruct Hshape as [Hlen _]; [| exact Hlen].
    vm_compute. discriminate.
Defined.

Lemma seg_contains_trans s1 s2 s3 :
  seg_contains s1 s2 = true → seg_contains s2 s3 = true →
  seg_contains s1 s3 = true.
Proof. rewrite !seg_contains_true. lia. Qed.

(** With a padding of at most half the on-source length, a segment
    returned for several detectors contains the on-source segment and lies
    within the segment around the on-source segment of every detector of
    the combination returned with it. *)
Theorem multi_ifo_segment_within analyzable_dict on_source kw r combo :
  wf_segment on_source →
  0 ≤ padding_time kw →
  2 * padding_time kw ≤ seg_abs on_source →
  (∀ m, max_trials kw = Some m → 0 ≤ m) →
  multi_ifo_compute_offsource_segment analyzable_dict on_source kw
  = Ok (Some r, combo) →
  seg_contains r on_source = true
  ∧ ∀ ifo, ifo ∈ combo →
      ∃ seglist s, analyzable_dict !! ifo = Some seglist
                   ∧ first_containing seglist on_source s
                   ∧ seg_contains s r = true.
Proof.
  intros Hwf Hpad Hhalf Hmax H.
  unfold multi_ifo_compute_offsource_segment in H.
  destruct (analyzable_ifos analyzable_dict on_source) as [ifos|e] eqn:Hifos;
    simpl in H; [| done].
  apply first_offsource_Ok in H
    as [([=] & _) | (seg & pre & c & post & [= <-] & Hsplit & _ & Hc & ->)].
  assert (c ∈ test_combos ifos) as [Hsub Hlen]%elem_of_test_combos.
  { rewrite Hsplit. apply elem_of_app. right. by left. }
  destruct (analyzable_ifos_Ok _ _ _ Hifos) as (Hnd & Hin & _).
  destruct (intersection_kept analyzable_dict on_source c)
    as (segs & Hsegs & Hint).
  { by eapply sublist_NoDup. }
  { intros ifo Hifo. apply has_containing_kept, Hin.
    by apply (sublist_subseteq _ _ Hsub). }
  unfold try_combo in Hc. rewrite Hint in Hc. simpl in Hc.
  destruct (offsource_result_shape _ _ _ _ _ _ _ Hwf Hpad Hmax Hc)
    as (s0 & np0 & nm0 & np & nm & Hfirst & Hcs & Hnat & _ & Hp & Hm & Hq & _ & ->).
  destruct (natural_trials_nonneg _ _ _ _ Hwf Hcs Hnat) as (_ & _ & _ & Hhi & Hlo).
  assert (Forall (fun t => seg_contains t on_source = true) segs) as Hall.
  { clear -Hsegs. induction Hsegs as [|ifo s c segs (seglist & _ & Hs) _ IH];
      constructor; [| done].
    by apply first_containing_elem_of in Hs as [_ ?]. }
  destruct (common_time_containing on_source segs)
    as (s1 & Hcommon & Hs1 & Hwithin & _).
  { unfold seg_abs in Hq. lia. }
  { apply Forall2_length in Hsegs. destruct segs; [simpl in *; lia | done]. }
  { done. }
  rewrite Hcommon in Hfirst.
  apply first_containing_elem_of in Hfirst as [->%list_elem_of_singleton _].
  apply seg_contains_true in Hs1 as [Hs1l Hs1h].
  unfold seg_abs in *. unfold wf_segment in Hwf.
  unfold contract in Hhi, Hlo. rewrite new_segment_le in Hhi, Hlo by lia.
  simpl in Hhi, Hlo.
  split; [apply seg_contains_true; simpl; nia |].
  intros ifo Hifo. pose proof (sort_strings_sorted c) as [_ Hperm].
  rewrite Hperm in Hifo.
  apply list_elem_of_lookup in Hifo as [i Hi].
  destruct (Forall2_lookup_l _ _ _ _ _ Hsegs Hi) as (s & Hs & seglist & Hd & Hfs).
  exists seglist, s. split_and!; [done | done |].
  rewrite Forall_forall in Hwithin.
  eapply seg_contains_trans; [apply Hwithin; by eapply list_elem_of_lookup_2 |].
  apply seg_contains_true. simpl. nia.
Qed.

Lemma multi_ifo_segment_within_witness :
  seg_contains (mkseg 0 300) (mkseg 100 200) = true.
Proof.
  destruct (multi_ifo_segment_within
              (list_to_map [("V1", [mkseg 0 1000]); ("H1", [mkseg 90 210]);
                            ("L1", [mkseg 0 1000])]%string)
              (mkseg 100 200) (mk_kwargs 0 (Some 2) None true)
              (mkseg 0 300) (sort_strings ["L1"; "V1"]%string)) as [Hc _].
  - unfold wf_segment. simpl. lia.
  - simpl. lia.
  - vm_compute. discriminate.
  - intros m [=].
  - vm_compute. reflexivity.
  - exact Hc.
Defined.

(** ** More on trial binning *)

Lemma ior_same_length a b :
  length b = length a →
  ior a b = Ok (zip_with orb a b)
  ∧ ∀ i, zip_with orb a b !! i = Some true
         ↔ a !! i = Some true ∨ b !! i = Some true.
Proof.
  intros Hlen. unfold ior. rewrite decide_True by done. split; [done |].
  intros i. rewrite lookup_zip_with_Some. split.
  - intros (x & y & Hor & Hx & Hy). symmetry in Hor.
    apply orb_true_iff in Hor as [-> | ->]; [by left | by right].
  - intros [Ha | Hb].
    + destruct (lookup_lt_is_Some_2 b i) as [y Hy].
      { rewrite Hlen. by eapply lookup_lt_Some. }
      exists true, y. done.
    + destruct (lookup_lt_is_Some_2 a i) as [x Hx].
      { rewrite <- Hlen. by eapply lookup_lt_Some. }
      exists x, true. split_and!; [by destruct x | done | done].
Qed.

Section VetoMask.

Context {LinearBins : Type}.
Variable new_LinearBins : Z → Z → Z → result LinearBins.
Variable bins_spanned : LinearBins → segmentlist → list bool.

(** The loop over the veto files marks a bin when it was marked before or
    one of the files marks it. *)
Lemma veto_loop_or trial_bins mask veto_files :
  Forall (fun f => length (bins_spanned trial_bins f) = length mask) veto_files →
  ∃ m, veto_loop bins_spanned trial_bins mask veto_files = Ok m
       ∧ ∀ i, m !! i = Some true
              ↔ mask !! i = Some true
                ∨ ∃ f, f ∈ veto_files ∧ bins_spanned trial_bins f !! i = Some true.
Proof.
  revert mask. induction veto_files as [|f fs IH]; intros mask Hall; simpl.
  - exists mask. split; [done |]. intros i. split; [by left |].
    intros [? | (f & Hf & _)]; [done | by apply elem_of_nil in Hf].
  - apply Forall_cons in Hall as [Hf Hfs].
    destruct (ior_same_length mask (bins_spanned trial_bins f) Hf) as [-> Hor].
    simpl. destruct (IH (zip_with orb mask (bins_spanned trial_bins f)))
      as (m & -> & Hm).
    { eapply Forall_impl; [exact Hfs |]. simpl. intros g Hg.
      rewrite length_zip_with. lia. }
    exists m. split; [done |]. intros i. rewrite Hm, Hor. split.
    + intros [[? | ?] | (g & Hg & ?)]; [by left | right | right].
      * exists f. split; [by left | done].
      * exists g. split; [by right | done].
    + intros [? | (g & [-> | Hg]%elem_of_cons & ?)].
      * by left; left.
      * by left; right.
      * right. by exists g.
Qed.

End VetoMask.

Lemma zeros_no_true n z i : zeros n = Ok z → z !! i ≠ Some true.
Proof.
  unfold zeros. case_bool_decide; [done |]. intros [= <-].
  intros [[=] _]%lookup_replicate.
Qed.

(** When every veto file yields a vector with one entry per trial bin, a
    bin is vetoed in the mask returned exactly when one of the files
    vetoes it: the mask is the disjunction over the files, and their order
    is of no account. *)
Theorem exttrig_trials_veto_mask {LinearBins : Type}
    (new_LinearBins : Z → Z → Z → result LinearBins)
    (bins_spanned : LinearBins → segmentlist → list bool)
    (on_segs off_segs : segmentlist) (veto_files : list segmentlist)
    trial_bins trial_veto_mask onsource_ind :
  get_exttrig_trials new_LinearBins bins_spanned on_segs off_segs veto_files
  = Ok (trial_bins, trial_veto_mask, onsource_ind) →
  Forall (fun f => length (bins_spanned trial_bins f) = length trial_veto_mask)
         veto_files →
  ∀ i, trial_veto_mask !! i = Some true
       ↔ ∃ f, f ∈ veto_files ∧ bins_spanned trial_bins f !! i = Some true.
Proof.
  intros H Hall i. unfold get_exttrig_trials in H.
  destruct (trial_binning new_LinearBins on_segs off_segs)
    as [[num_trials bins]|e] eqn:Hb; simpl in H; [| done].
  destruct (zeros num_trials) as [zero|e] eqn:Hz; simpl in H; [| done].
  destruct (veto_loop bins_spanned bins zero veto_files) as [m|e] eqn:Hv;
    simpl in H; [| done].
  case_decide; [done |]. injection H as <- <- <-.
  pose proof (veto_loop_Ok _ _ _ _ _ Hv) as Hlen.
  destruct (veto_loop_or bins_spanned bins zero veto_files) as (m' & Hv' & Hm').
  { eapply Forall_impl; [exact Hall |]. simpl. intros f Hf. congruence. }
  rewrite Hv in Hv'. injection Hv' as <-. rewrite Hm'. split.
  - intros [Hzero | ?]; [| done]. by apply (zeros_no_true _ _ i) in Hz.
  - by right.
Qed.

Lemma exttrig_trials_veto_mask_witness :
  [false; false; true] !! 2%nat = Some true
  ↔ ∃ f, f ∈ [[mkseg 250 260]; []]
         ∧ spec_bins_spanned (mk_spec_bins 0 300 3) f !! 2%nat = Some true.
Proof.
  apply (exttrig_trials_veto_mask spec_LinearBins spec_bins_spanned
           [mkseg 100 200] [mkseg 0 300] [[mkseg 250 260]; []]
           (mk_spec_bins 0 300 3) [false; false; true] [1%nat]).
  - vm_compute. reflexivity.
  - repeat constructor.
Defined.

(** The veto files bear on the mask alone: when the call returns, the
    call without veto files returns the same bins and the same on-source
    index, with a mask of as many entries, none of them set. *)
Theorem exttrig_trials_without_vetoes {LinearBins : Type}
    (new_LinearBins : Z → Z → Z → result LinearBins)
    (bins_spanned : LinearBins → segmentlist → list bool)
    (on_segs off_segs : segmentlist) (veto_files : list segmentlist)
    trial_bins trial_veto_mask onsource_ind :
  get_exttrig_trials new_LinearBins bins_spanned on_segs off_segs veto_files
  = Ok (trial_bins, trial_veto_mask, onsource_ind) →
  get_exttrig_trials new_LinearBins bins_spanned on_segs off_segs []
  = Ok (trial_bins, replicate (length trial_veto_mask) false, onsource_ind).
Proof.
  unfold get_exttrig_trials.
  destruct (trial_binning new_LinearBins on_segs off_segs)
    as [[num_trials bins]|e] eqn:Hb; simpl; [| done].
  destruct (zeros num_trials) as [zero|e] eqn:Hz; simpl; [| done].
  destruct (veto_loop bins_spanned bins zero veto_files) as [m|e] eqn:Hv;
    simpl; [| done].
  case_decide; [done |]. intros [= <- <- <-].
  apply veto_loop_Ok in Hv. rewrite Hv.
  unfold zeros in Hz. case_bool_decide; [done |]. injection Hz as <-.
  by rewrite length_replicate.
Qed.

Lemma exttrig_trials_without_vetoes_witness :
  get_exttrig_trials spec_LinearBins spec_bins_spanned
    [mkseg 100 200] [mkseg 0 300] []
  = Ok (mk_spec_bins 0 300 3, replicate (length [false; false; true]) false,
        [1%nat]).
Proof.
  apply (exttrig_trials_without_vetoes spec_LinearBins spec_bins_spanned
           [mkseg 100 200] [mkseg 0 300] [[mkseg 250 260]; []]).
  vm_compute. reflexivity.
Defined.

(** An on-source list of total duration zero ends in
    [ZeroDivisionError] whatever the other arguments; with an on-source
    duration other than zero, an empty off-source list passes the test of
    divisibility and ends in the [ValueError] of its extent. *)
Theorem exttrig_trials_degenerate {LinearBins : Type}
    (new_LinearBins : Z → Z → Z → result LinearBins)
    (bins_spanned : LinearBins → segmentlist → list bool)
    (on_segs off_segs : segmentlist) (veto_files : list segmentlist) :
  (list_abs on_segs = 0 →
   get_exttrig_trials new_LinearBins bins_spanned on_segs off_segs veto_files
   = Raise ZeroDivisionError)
  ∧ (list_abs on_segs ≠ 0 →
     get_exttrig_trials new_LinearBins bins_spanned on_segs [] veto_files
     = Raise ValueError).
Proof.
  unfold get_exttrig_trials, trial_binning, pymod. split; intros Hz.
  - by rewrite decide_True.
  - rewrite decide_False by done. change (list_abs []) with 0.
    rewrite Z.mod_0_l by done. done.
Qed.

Lemma exttrig_trials_degenerate_witness :
  get_exttrig_trials spec_LinearBins spec_bins_spanned
    [mkseg 5 5] [mkseg 0 250] [] = Raise ZeroDivisionError
  ∧ get_exttrig_trials spec_LinearBins spec_bins_spanned
      [mkseg 100 200] [] [] = Raise ValueError.
Proof.
  split.
  - apply exttrig_trials_degenerate. reflexivity.
  - destruct (exttrig_trials_degenerate spec_LinearBins spec_bins_spanned
                [mkseg 100 200] [] []) as [_ Hempty].
    apply Hempty. cbv [list_abs seg_abs foldr seg_lo seg_hi]. lia.
Defined.

(** ** The number of slides *)

Section NumSlidesFacts.

Variable py_int : string → result Z.

Lemma num_slides_in_app tbl1 tbl2 :
  num_slides_in py_int (tbl1 ++ tbl2)
  = match num_slides_in py_int tbl1 with
    | Some r => Some r
    | None => num_slides_in py_int tbl2
    end.
Proof.
  induction tbl1 as [|row tbl1 IH]; simpl; [done |]. by case_decide.
Qed.

Lemma num_slides_in_None tbl :
  num_slides_in py_int tbl = None
  ↔ Forall (fun row => row_param row ≠ "--num-slides"%string) tbl.
Proof.
  induction tbl as [|row tbl IH]; simpl.
  - split; [constructor | done].
  - case_decide as Hp.
    + split; [done |]. by intros [? _]%Forall_cons.
    + rewrite IH. split; [by constructor | by intros [_ ?]%Forall_cons].
Qed.

(** The tables read one after the other are read as one table. *)
Lemma get_num_slides_join tables :
  get_num_slides py_int tables
  = default (Ok 0) (num_slides_in py_int (mjoin tables)).
Proof.
  induction tables as [|tbl tables IH]; simpl; [done |].
  rewrite num_slides_in_app. by destruct (num_slides_in py_int tbl).
Qed.

End NumSlidesFacts.

(** [get_num_slides] returns [int] of the value of the first row, in the
    order of the tables and of their rows, whose parameter is
    [--num-slides], whatever follows that row, failing when [int] fails on
    that value; and it returns 0 when no row has that parameter. *)
Theorem get_num_slides_first_row (py_int : string → result Z)
    (tables : list (list process_params_row)) :
  (∀ before row after,
     mjoin tables = before ++ row :: after →
     Forall (fun r => row_param r ≠ "--num-slides"%string) before →
     row_param row = "--num-slides"%string →
     get_num_slides py_int tables = py_int (row_value row))
  ∧ (Forall (fun r => row_param r ≠ "--num-slides"%string) (mjoin tables) →
     get_num_slides py_int tables = Ok 0).
Proof.
  rewrite get_num_slides_join. split.
  - intros before row after -> Hbefore Hrow.
    rewrite num_slides_in_app.
    apply (num_slides_in_None py_int) in Hbefore. rewrite Hbefore. simpl.
    by rewrite decide_True.
  - intros Hnone. apply (num_slides_in_None py_int) in Hnone. by rewrite Hnone.
Qed.

Lemma get_num_slides_first_row_witness :
  get_num_slides (fun s => if decide (s = "3"%string) then Ok 3 else Raise ValueError)
    [[mk_row "--ifo" "H1"]; [];
     [mk_row "--num-slides" "3"; mk_row "--num-slides" "bad"]]%string
  = Ok 3.
Proof.
  destruct (get_num_slides_first_row
              (fun s => if decide (s = "3"%string) then Ok 3 else Raise ValueError)
              [[mk_row "--ifo" "H1"]; [];
               [mk_row "--num-slides" "3"; mk_row "--num-slides" "bad"]]%string)
    as [Hfirst _].
  apply (Hfirst [mk_row "--ifo" "H1"]%string (mk_row "--num-slides" "3")%string
                [mk_row "--num-slides" "bad"]%string).
  - reflexivity.
  - repeat constructor. discriminate.
  - reflexivity.
Defined.

(** ** Segment lists as sets of times *)







#[local] Instance seg_le_total : Total seg_le.
Proof. intros a b. unfold seg_le. lia. Qed.








(** ** More on the masked segments *)








